(** * Heat Transfer Simulator v8.2: the three explicit quench solvers

    A shallow embedding of [simulate_square_bar_fast],
    [simulate_cylindrical_bar_fast] and [simulate_conical_tip_bar_fast]
    (HTSv8.2.py), together with [get_resolution_params].

    Numbers.  The program computes in binary floating point.  Here every
    float is an exact rational ([Q]): the properties below are those of the
    numerical scheme, rounding is not modelled.  Equalities written [=] are
    syntactic (the same expression tree as the source evaluates), those
    written [==] are equalities of rational values.

    Arrays.  A numpy array is a list (1-D) or a list of rows (2-D).  A slice
    assignment [A[region] = expr] is an indexed map that overwrites exactly
    the positions of the region; a scalar assignment [A[i, j] = v] inside a
    [for] loop is the same operation on a one-point region.  All right-hand
    sides are evaluated on the array they name in the source ([T], the field
    of the previous step, or [T_new]).

    Division.  Where Python raises [ZeroDivisionError] the solvers return
    [ZeroDivision].  Where numpy would instead produce [inf] or [nan] (a zero
    spacing inside an array expression) the rational quotient is 0; the
    properties that depend on the field assume positive dimensions.

    Control.  The [while] loops are run with fuel; the fuel the solvers pass
    is shown to be enough, so that each solver is a total function.

    Rendering (matplotlib) is not part of the model. *)

From Stdlib Require Import ZArith QArith Qpower Qround Qabs Lia Lqa List Bool Arith PeanoNat Permutation.
Import ListNotations.
Open Scope Q_scope.

(** ** Python and numpy primitives *)

Definition Qltb (a b : Q) : bool := negb (Qle_bool b a).

(** [max(a, b)] and [min(a, b)] of Python: the first argument wins ties. *)
Definition py_max (a b : Q) : Q := if Qltb a b then b else a.
Definition py_min (a b : Q) : Q := if Qltb b a then b else a.

Definition Q_of_nat (n : nat) : Q := inject_Z (Z.of_nat n).

(** [range(lo, hi)] *)
Definition range (lo hi : nat) : list nat := seq lo (hi - lo).

(** [lo <= i < hi], the index set of the slice [lo:hi]. *)
Definition in_slice (lo hi i : nat) : bool := (lo <=? i)%nat && (i <? hi)%nat.

Fixpoint mapi_from {A B : Type} (f : nat -> A -> B) (n : nat) (l : list A) : list B :=
  match l with
  | [] => []
  | x :: l' => f n x :: mapi_from f (S n) l'
  end.

Definition mapi {A B : Type} (f : nat -> A -> B) (l : list A) : list B :=
  mapi_from f 0 l.

(** [np.linspace(start, stop, num)[i]] *)
Definition linspace (start stop : Q) (num : nat) : list Q :=
  map (fun i => Q_of_nat i * ((stop - start) / Q_of_nat (num - 1)) + start) (seq 0 num).

(** *** One-dimensional arrays *)

Definition vec := list Q.

Definition get1 (A : vec) (i : nat) : Q := nth i A 0.

(** [np.ones(n) * v] *)
Definition np_ones1 (n : nat) (v : Q) : vec := repeat (1 * v) n.

(** An assignment to a region of a 1-D array.  The new content may depend on
    the current one (augmented assignment [-=]). *)
Record write1 : Type := MkWrite1 {
  region1 : nat -> bool;
  value1 : nat -> Q -> Q
}.

Definition assign1 (w : write1) (A : vec) : vec :=
  mapi (fun i x => if region1 w i then value1 w i x else x) A.

(** *** Two-dimensional arrays *)

Definition grid := list (list Q).

Definition get2 (A : grid) (i j : nat) : Q := nth j (nth i A []) 0.

(** [np.ones((n0, n1)) * v] *)
Definition np_ones2 (n0 n1 : nat) (v : Q) : grid := repeat (repeat (1 * v) n1) n0.

Definition mapi2 (f : nat -> nat -> Q -> Q) (A : grid) : grid :=
  mapi (fun i row => mapi (fun j x => f i j x) row) A.

(** An assignment [A[region] = value], the value already evaluated on the
    arrays the right-hand side reads. *)
Record write : Type := MkWrite {
  region : nat -> nat -> bool;
  value : nat -> nat -> Q
}.

Definition assign (w : write) (A : grid) : grid :=
  mapi2 (fun i j x => if region w i j then value w i j else x) A.

(** [A[i, j] = v] *)
Definition point (i j : nat) (v : Q) : write :=
  MkWrite (fun i' j' => (i' =? i)%nat && (j' =? j)%nat) (fun _ _ => v).

(** The assignments of one sweep, performed in list order. *)
Definition apply_writes (ws : list write) (A : grid) : grid :=
  fold_left (fun B w => assign w B) ws A.

(** The value the last assignment covering [(i, j)] leaves there, if any. *)
Fixpoint last_write (ws : list write) (i j : nat) : option Q :=
  match ws with
  | [] => None
  | w :: ws' =>
      match last_write ws' i j with
      | Some v => Some v
      | None => if region w i j then Some (value w i j) else None
      end
  end.

(** What a sweep leaves at a position that held [x]. *)
Definition written (ws : list write) (i j : nat) (x : Q) : Q :=
  match last_write ws i j with
  | Some v => v
  | None => x
  end.

(** Assignments that agree wherever two of them cover the same position. *)
Definition consistent (ws : list write) : Prop :=
  forall w1 w2 i j,
    In w1 ws -> In w2 ws ->
    region w1 i j = true -> region w2 i j = true ->
    value w1 i j = value w2 i j.

(** A Jacobi sweep: every node of the new field is a rule applied to the old
    field. *)
Definition jacobi_sweep (rule : grid -> nat -> nat -> Q) (T : grid) : grid :=
  mapi2 (fun i j _ => rule T i j) T.

(** [A] has [n0] rows of [n1] entries. *)
Definition shape (n0 n1 : nat) (A : grid) : Prop :=
  length A = n0 /\ Forall (fun row => length row = n1) A.

(** ** Loop state, history sampler, while loop *)

Record sim_state (G : Type) : Type := SimState {
  fld : G;
  clock : Q;
  time_history : list Q;
  temp_history : list Q
}.
Arguments SimState {G} _ _ _ _.
Arguments fld {G} _.
Arguments clock {G} _.
Arguments time_history {G} _.
Arguments temp_history {G} _.

(** The four lines each solver ends its loop body with:
<<
    if len(time_history) == 0 or t - time_history[-1] >= 0.5:
        time_history.append(t)
        temp_history.append(T[center])
>> *)
Definition record_sample {G : Type} (center : G -> Q) (s : sim_state G) : sim_state G :=
  if (length (time_history s) =? 0)%nat
     || Qle_bool 0.5 (clock s - last (time_history s) 0)
  then SimState (fld s) (clock s)
                (time_history s ++ [clock s])
                (temp_history s ++ [center (fld s)])
  else s.

Inductive outcome (S : Type) : Type :=
| Continue (s : S)
| Break (s : S).
Arguments Continue {S} _.
Arguments Break {S} _.

(** [while cond: body], where [body] may [break]. *)
Fixpoint while {S : Type} (fuel : nat) (cond : S -> bool) (body : S -> outcome S)
         (s : S) : option S :=
  if cond s then
    match fuel with
    | O => None
    | Datatypes.S fuel' =>
        match body s with
        | Continue s' => while fuel' cond body s'
        | Break s' => Some s'
        end
    end
  else Some s.

(** The state after [n] passes through a body that never breaks. *)
Fixpoint iterate {S : Type} (body : S -> S) (n : nat) (s : S) : S :=
  match n with
  | O => s
  | Datatypes.S n' => body (iterate body n' s)
  end.

(** The state a pass through [body] leads to, and whether the pass ends in
    [break]. *)
Definition next {S : Type} (body : S -> outcome S) (s : S) : S :=
  match body s with
  | Continue s' => s'
  | Break s' => s'
  end.

Definition breaks {S : Type} (body : S -> outcome S) (s : S) : bool :=
  match body s with
  | Continue _ => false
  | Break _ => true
  end.

(** The common form of a pass of the three solvers: new field, clock
    advanced by [dt], then the history sampler. *)
Definition pass {G : Type} (step : G -> G) (center : G -> Q) (dt : Q)
           (s : sim_state G) : sim_state G :=
  record_sample center
    (SimState (step (fld s)) (clock s + dt) (time_history s) (temp_history s)).

(** Consecutive entries are at least [gap] apart; entries strictly increase. *)
Fixpoint gapped (gap : Q) (l : list Q) : Prop :=
  match l with
  | [] => True
  | a :: l' =>
      match l' with
      | [] => True
      | b :: _ => gap <= b - a
      end /\ gapped gap l'
  end.

Fixpoint increasing (l : list Q) : Prop :=
  match l with
  | [] => True
  | a :: l' =>
      match l' with
      | [] => True
      | b :: _ => a < b
      end /\ increasing l'
  end.

(** What the history sampler promises along the passes
    [s0, f s0, f (f s0), ...] of a run. *)
Definition sampler_spec {G : Type} (center : G -> Q)
           (f : sim_state G -> sim_state G) (s0 : sim_state G) : Prop :=
  forall n : nat,
    let s := iterate f n s0 in
    let s' := f s in
    (time_history s = [] ->
     time_history s' = [clock s'] /\ temp_history s' = [center (fld s')])
    /\ (time_history s <> [] -> 0.5 <= clock s' - last (time_history s) 0 ->
        time_history s' = time_history s ++ [clock s']
        /\ temp_history s' = temp_history s ++ [center (fld s')])
    /\ (time_history s <> [] -> clock s' - last (time_history s) 0 < 0.5 ->
        time_history s' = time_history s /\ temp_history s' = temp_history s)
    /\ gapped 0.5 (time_history s)
    /\ increasing (time_history s)
    /\ length (time_history s) = length (temp_history s)
    /\ (forall m : nat, (m <= n)%nat ->
        exists l1 l2,
          time_history s = time_history (iterate f m s0) ++ l1
          /\ temp_history s = temp_history (iterate f m s0) ++ l2).

(** More passes than a loop that advances its clock by [dt > 0] per pass can
    make before the clock reaches [sim_time]. *)
Definition enough_fuel (sim_time dt : Q) : nat :=
  S (Z.to_nat (Qceiling (sim_time / dt))).

Inductive result (A : Type) : Type :=
| Ok (a : A)
| ZeroDivision
| OutOfFuel.
Arguments Ok {A} _.
Arguments ZeroDivision {A}.
Arguments OutOfFuel {A}.

(** The bound of the explicit scheme on the time step,
    [C * min(spacing^2) / (n * alpha)]. *)
Definition stability_bound (C n spacing2 alpha : Q) : Q := C * spacing2 / (n * alpha).

(** Exponential relaxation towards [T_coolant]: [m] times the update
    [T_new = T_coolant + (T_old - T_coolant) * E], from [T0]. *)
Fixpoint relax (T_coolant E T0 : Q) (m : nat) : Q :=
  match m with
  | O => T0
  | Datatypes.S m' => T_coolant + (relax T_coolant E T0 m' - T_coolant) * E
  end.

(** ** Relaxation updates

    An explicit update in normal form: the node moves from its value [T]
    towards the values [X1 .. X4] of up to four other nodes and towards the
    coolant temperature, by the weights [c1 .. c4] and [c0]. *)
Definition relaxation (T X1 X2 X3 X4 T_coolant c1 c2 c3 c4 c0 : Q) : Q :=
  T + c1 * (X1 - T) + c2 * (X2 - T) + c3 * (X3 - T) + c4 * (X4 - T)
  + c0 * (T_coolant - T).

(** Fields are compared node by node, through an accessor [val] and the set
    [dom] of the nodes of the mesh. *)
Definition within {G I : Type} (val : G -> I -> Q) (dom : I -> Prop)
           (lo hi : Q) (T : G) : Prop :=
  forall i, dom i -> lo <= val T i <= hi.

Definition below {G I : Type} (val : G -> I -> Q) (dom : I -> Prop)
           (T T' : G) : Prop :=
  forall i, dom i -> val T i <= val T' i.

(** The pass [step] updates node [i] by a relaxation whose weights are
    non-negative and sum to at most one. *)
Definition relaxes {G I : Type} (val : G -> I -> Q) (dom : I -> Prop)
           (wf : G -> Prop) (T_coolant : Q) (step : G -> G) (i : I) : Prop :=
  exists (p1 p2 p3 p4 : I) (c1 c2 c3 c4 c0 : Q),
    (dom p1 /\ dom p2 /\ dom p3 /\ dom p4)
    /\ (0 <= c1 /\ 0 <= c2 /\ 0 <= c3 /\ 0 <= c4 /\ 0 <= c0)
    /\ c1 + c2 + c3 + c4 + c0 <= 1
    /\ forall T, wf T ->
         val (step T) i
         == relaxation (val T i) (val T p1) (val T p2) (val T p3) (val T p4)
                       T_coolant c1 c2 c3 c4 c0.

Definition val2 (T : grid) (p : nat * nat) : Q := get2 T (fst p) (snd p).

Definition dom2 (n0 n1 : nat) (p : nat * nat) : Prop :=
  (fst p < n0)%nat /\ (snd p < n1)%nat.

Definition dom1 (n : nat) (i : nat) : Prop := (i < n)%nat.

(** Every entry is at most the one before it. *)
Fixpoint non_increasing (l : list Q) : Prop :=
  match l with
  | [] => True
  | a :: l' =>
      match l' with
      | [] => True
      | b :: _ => b <= a
      end /\ non_increasing l'
  end.

(** ** Resolution policy *)

Inductive resolution : Type := Low | Medium | High.

Inductive geometry_type : Type := square | cylindrical | conical.

Definition get_resolution_params (res : resolution) (g : geometry_type) : list nat :=
  match res, g with
  | Low, square => [15; 15]
  | Low, cylindrical => [12; 25]
  | Low, conical => [25]
  | Medium, square => [25; 25]
  | Medium, cylindrical => [18; 35]
  | Medium, conical => [40]
  | High, square => [35; 35]
  | High, cylindrical => [24; 45]
  | High, conical => [50]
  end%nat.

(** ** Square bar: [simulate_square_bar_fast] *)

Module Square.
Section Solver.

Variable res : resolution.
Variables k rho cp h_waterjet h_natural T_coolant T_init sim_time width height : Q.

Definition nz : nat := Nat.max 3 (nth 0 (get_resolution_params res square) 0%nat).
Definition nx : nat := Nat.max 3 (nth 1 (get_resolution_params res square) 0%nat).

Definition dz : Q := height / Q_of_nat (nz - 1).
Definition dx : Q := width / Q_of_nat (nx - 1).

Definition alpha : Q := k / (rho * cp).
Definition dt : Q := py_max 0.001 (0.25 * py_min (dx ^ 2) (dz ^ 2) / (4 * alpha)).

Definition rx : Q := alpha * dt / dx ^ 2.
Definition rz : Q := alpha * dt / dz ^ 2.

(** [T_new[1:-1, 1:-1] = ...] *)
Definition interior (T : grid) : write :=
  MkWrite (fun i j => in_slice 1 (nz - 1) i && in_slice 1 (nx - 1) j)
          (fun i j => get2 T i j
                      + rx * (get2 T i (j + 1) - 2 * get2 T i j + get2 T i (j - 1))
                      + rz * (get2 T (i + 1) j - 2 * get2 T i j + get2 T (i - 1) j)).

(** [T_new[0, :] = ...], the face on the water jet *)
Definition bottom (T : grid) : write :=
  MkWrite (fun i j => (i =? 0)%nat)
          (fun i j => get2 T 0 j
                      + 2 * rz * (get2 T 1 j - get2 T 0 j
                                  - (h_waterjet * dz / k) * (get2 T 0 j - T_coolant))).

(** [T_new[1:-1, 0] = ...] *)
Definition side_first (T : grid) : write :=
  MkWrite (fun i j => in_slice 1 (nz - 1) i && (j =? 0)%nat)
          (fun i j => get2 T i 0
                      + 2 * rx * (get2 T i 1 - get2 T i 0
                                  - (h_natural * dx / k) * (get2 T i 0 - T_coolant))).

(** [T_new[1:-1, -1] = ...] *)
Definition side_last (T : grid) : write :=
  MkWrite (fun i j => in_slice 1 (nz - 1) i && (j =? nx - 1)%nat)
          (fun i j => get2 T i (nx - 1)
                      + 2 * rx * (get2 T i (nx - 2) - get2 T i (nx - 1)
                                  - (h_natural * dx / k) * (get2 T i (nx - 1) - T_coolant))).

(** [T_new[-1, 1:-1] = ...] *)
Definition top (T : grid) : write :=
  MkWrite (fun i j => (i =? nz - 1)%nat && in_slice 1 (nx - 1) j)
          (fun i j => get2 T (nz - 1) j
                      + 2 * rz * (get2 T (nz - 2) j - get2 T (nz - 1) j
                                  - (h_natural * dz / k) * (get2 T (nz - 1) j - T_coolant))).

(** The assignments of one pass through the loop body, in source order. *)
Definition writes (T : grid) : list write :=
  (if (2 <? nz)%nat && (2 <? nx)%nat then [interior T] else [])
  ++ (if (1 <? nz)%nat then [bottom T] else [])
  ++ (if (2 <? nx)%nat then [side_first T; side_last T] else [])
  ++ (if (2 <? nz)%nat then [top T] else []).

(** [T_new = T.copy(); ...; T = T_new] *)
Definition step (T : grid) : grid := apply_writes (writes T) T.

(** The sweep read as a rule per node: what the pass leaves at [(i, j)],
    computed from the field [T] of the previous step alone. *)
Definition node (T : grid) (i j : nat) : Q :=
  if (i =? 0)%nat then value (bottom T) i j
  else if (i =? nz - 1)%nat then
    if in_slice 1 (nx - 1) j then value (top T) i j else get2 T i j
  else if (j =? 0)%nat then value (side_first T) i j
  else if (j =? nx - 1)%nat then value (side_last T) i j
  else value (interior T) i j.

Definition center (T : grid) : Q :=
  get2 T (Nat.min (nz / 2) (nz - 1)) (Nat.min (nx / 2) (nx - 1)).

(** The weights of the four assignments of the pass are those of convex
    combinations: the interior scheme and the three kinds of face. *)
Definition stable : Prop :=
  2 * rx + 2 * rz <= 1
  /\ 2 * rz * (1 + h_waterjet * dz / k) <= 1
  /\ 2 * rx * (1 + h_natural * dx / k) <= 1
  /\ 2 * rz * (1 + h_natural * dz / k) <= 1.

Definition body (s : sim_state grid) : sim_state grid :=
  record_sample center
    (SimState (step (fld s)) (clock s + dt) (time_history s) (temp_history s)).

Definition init : sim_state grid := SimState (np_ones2 nz nx T_init) 0 [] [].

Definition running (s : sim_state grid) : bool := Qltb (clock s) sim_time.

(** Divisors of float divisions that are zero: Python raises
    [ZeroDivisionError] while it computes [alpha], [dt], [rx] or [rz]. *)
Definition zero_divisor : bool :=
  Qeq_bool (rho * cp) 0 || Qeq_bool (4 * alpha) 0
  || Qeq_bool (dx ^ 2) 0 || Qeq_bool (dz ^ 2) 0.

Definition run : option (sim_state grid) :=
  while (enough_fuel sim_time dt) running (fun s => Continue (body s)) init.

Definition simulate_square_bar_fast : result (list Q * list Q) :=
  if zero_divisor then ZeroDivision
  else match run with
       | Some s => Ok (time_history s, temp_history s)
       | None => OutOfFuel
       end.

End Solver.
End Square.

(** ** Cylindrical bar: [simulate_cylindrical_bar_fast] *)

Module Cyl.
Section Solver.

Variable res : resolution.
Variables k rho cp h_waterjet h_natural T_coolant T_init sim_time diameter height : Q.

Definition radius : Q := diameter / 2.

Definition nr : nat := Nat.max 3 (nth 0 (get_resolution_params res cylindrical) 0%nat).
Definition nz : nat := Nat.max 3 (nth 1 (get_resolution_params res cylindrical) 0%nat).

Definition dr : Q := radius / Q_of_nat (nr - 1).
Definition dz : Q := height / Q_of_nat (nz - 1).

Definition alpha : Q := k / (rho * cp).

Definition dt_stable : Q := 0.1 * py_min (dr ^ 2) (dz ^ 2) / (4 * alpha).
Definition dt : Q := py_max 0.001 (py_min dt_stable 0.1).

Definition r : list Q := linspace 0 radius nr.

(** [r_safe = r.copy(); r_safe[0] = dr * 0.5] *)
Definition r_safe : list Q :=
  mapi (fun i x => if (i =? 0)%nat then dr * 0.5 else x) r.

(** Body of the doubly nested loop over the interior nodes. *)
Definition interior_value (T : grid) (i j : nat) : Q :=
  let r_val := nth i r_safe 0 in
  let dT_dr := (get2 T (i + 1) j - get2 T (i - 1) j) / (2 * dr) in
  let d2T_dr2 := (get2 T (i + 1) j - 2 * get2 T i j + get2 T (i - 1) j) / (dr ^ 2) in
  let d2T_dz2 := (get2 T i (j + 1) - 2 * get2 T i j + get2 T i (j - 1)) / (dz ^ 2) in
  get2 T i j + alpha * dt * (d2T_dr2 + (1 / r_val) * dT_dr + d2T_dz2).

(** Body of the centerline loop. *)
Definition centerline_value (T : grid) (j : nat) : Q :=
  let d2T_dr2_center := 2 * (get2 T 1 j - get2 T 0 j) / (dr ^ 2) in
  let d2T_dz2 := (get2 T 0 (j + 1) - 2 * get2 T 0 j + get2 T 0 (j - 1)) / (dz ^ 2) in
  get2 T 0 j + alpha * dt * (d2T_dr2_center + d2T_dz2).

(** Body of the loop over the face on the water jet, [z = 0]. *)
Definition bottom_value (T : grid) (i : nat) : Q :=
  get2 T i 0 + alpha * dt * ((get2 T i 1 - get2 T i 0) / dz ^ 2
                             + h_waterjet * (T_coolant - get2 T i 0) / (k * dz)).

(** Body of the loop over the face [z = height]. *)
Definition top_value (T : grid) (i : nat) : Q :=
  get2 T i (nz - 1)
  + alpha * dt * ((get2 T i (nz - 2) - get2 T i (nz - 1)) / dz ^ 2
                  + h_natural * (T_coolant - get2 T i (nz - 1)) / (k * dz)).

(** Body of the loop over the face [r = radius]. *)
Definition outer_value (T : grid) (j : nat) : Q :=
  let dT_dr := (get2 T (nr - 1) j - get2 T (nr - 2) j) / dr in
  get2 T (nr - 1) j
  + alpha * dt * ((get2 T (nr - 2) j - get2 T (nr - 1) j) / dr ^ 2
                  + (1 / radius) * dT_dr
                  + h_natural * (T_coolant - get2 T (nr - 1) j) / (k * dr)).

Definition interior_loop (T : grid) : list write :=
  flat_map (fun i => map (fun j => point i j (interior_value T i j)) (range 1 (nz - 1)))
           (range 1 (nr - 1)).

Definition centerline_loop (T : grid) : list write :=
  map (fun j => point 0 j (centerline_value T j)) (range 1 (nz - 1)).

Definition bottom_loop (T : grid) : list write :=
  map (fun i => point i 0 (bottom_value T i)) (range 0 nr).

Definition top_loop (T : grid) : list write :=
  map (fun i => point i (nz - 1) (top_value T i)) (range 0 nr).

Definition outer_loop (T : grid) : list write :=
  map (fun j => point (nr - 1) j (outer_value T j)) (range 1 (nz - 1)).

(** The scalar assignments of one pass through the loop body, in source
    order. *)
Definition writes (T : grid) : list write :=
  interior_loop T ++ centerline_loop T ++ bottom_loop T ++ top_loop T ++ outer_loop T.

(** [T_new = T.copy(); ...; T = np.copy(T_new)] *)
Definition step (T : grid) : grid := apply_writes (writes T) T.

(** The sweep read as a rule per node: what the pass leaves at [(i, j)],
    computed from the field [T] of the previous step alone. *)
Definition node (T : grid) (i j : nat) : Q :=
  if (j =? 0)%nat then bottom_value T i
  else if (j =? nz - 1)%nat then top_value T i
  else if (i =? 0)%nat then centerline_value T j
  else if (i =? nr - 1)%nat then outer_value T j
  else interior_value T i j.

Definition center (T : grid) : Q :=
  get2 T (Nat.min (nr / 2) (nr - 1)) (Nat.min (nz / 2) (nz - 1)).

(** [temp_history[-1]] and [temp_history[-2]] *)
Definition last1 (l : list Q) : Q := nth (length l - 1) l 0.
Definition last2 (l : list Q) : Q := nth (length l - 2) l 0.

(** The test of the early termination:
<<
    if t > 10 and len(temp_history) > 1 and abs(temp_history[-1] - temp_history[-2]) < 0.1:
        if temp_history[-1] < T_coolant + 50:
            break
>> *)
Definition converged (s : sim_state grid) : bool :=
  (Qltb 10 (clock s)
   && (1 <? length (temp_history s))%nat
   && Qltb (Qabs (last1 (temp_history s) - last2 (temp_history s))) 0.1)
  && Qltb (last1 (temp_history s)) (T_coolant + 50).

(** The weights of the loops of the pass are those of convex combinations:
    interior and centerline, jet face, top face, outer face. *)
Definition stable : Prop :=
  2 * (alpha * dt / dr ^ 2) + 2 * (alpha * dt / dz ^ 2) <= 1
  /\ alpha * dt / dz ^ 2 + alpha * dt * h_waterjet / (k * dz) <= 1
  /\ alpha * dt / dz ^ 2 + alpha * dt * h_natural / (k * dz) <= 1
  /\ alpha * dt / dr ^ 2 + alpha * dt * h_natural / (k * dr) <= 1.

(** One pass without the early termination test. *)
Definition advance (s : sim_state grid) : sim_state grid :=
  record_sample center
    (SimState (step (fld s)) (clock s + dt) (time_history s) (temp_history s)).

Definition body (s : sim_state grid) : outcome (sim_state grid) :=
  let s' := advance s in
  if converged s' then Break s' else Continue s'.

Definition init : sim_state grid := SimState (np_ones2 nr nz T_init) 0 [] [].

Definition running (s : sim_state grid) : bool := Qltb (clock s) sim_time.

(** Python raises [ZeroDivisionError] on [k / (rho * cp)], on the division by
    [4 * alpha] and, in the first pass through the loop, on [1 / radius]. *)
Definition zero_divisor : bool :=
  Qeq_bool (rho * cp) 0 || Qeq_bool (4 * alpha) 0
  || (Qltb 0 sim_time && Qeq_bool radius 0).

Definition run : option (sim_state grid) :=
  while (enough_fuel sim_time dt) running body init.

Definition simulate_cylindrical_bar_fast : result (list Q * list Q) :=
  if zero_divisor then ZeroDivision
  else match run with
       | Some s => Ok (time_history s, temp_history s)
       | None => OutOfFuel
       end.

End Solver.
End Cyl.

(** ** Bar with a conical tip: [simulate_conical_tip_bar_fast] *)

Module Cone.
Section Solver.

(** [np.exp] *)
Variable exp : Q -> Q.

Variable res : resolution.
Variables k rho cp h_waterjet h_natural T_coolant T_init sim_time : Q.
Variables cyl_diameter cyl_height cone_height cone_angle : Q.

Definition total_length : Q := cyl_height + cone_height.
Definition radius_cyl : Q := cyl_diameter / 2.

Definition n_points : nat := Nat.max 3 (nth 0 (get_resolution_params res conical) 0%nat).

Definition dx : Q := total_length / Q_of_nat (n_points - 1).

Definition alpha : Q := k / (rho * cp).
Definition dt : Q := py_max 0.001 (0.3 * dx ^ 2 / (4 * alpha)).

(** [T_new[1:-1] = T[1:-1] + alpha * dt * d2T_dx2] *)
Definition diffusion (T : vec) : write1 :=
  MkWrite1 (in_slice 1 (n_points - 1))
           (fun i _ =>
              let d2T_dx2 := (get1 T (i + 1) - 2 * get1 T i + get1 T (i - 1)) / dx ^ 2 in
              get1 T i + alpha * dt * d2T_dx2).

(** [T_new[0] = ...], the free end *)
Definition free_end (T : vec) : write1 :=
  MkWrite1 (fun i => (i =? 0)%nat)
           (fun _ _ => get1 T 0 - alpha * dt * (h_natural / (k * dx)) * (get1 T 0 - T_coolant)).

(** [T_new[-1] = ...], the tip on the water jet *)
Definition tip (T : vec) : write1 :=
  MkWrite1 (fun i => (i =? n_points - 1)%nat)
           (fun _ _ => T_coolant
                       + (get1 T (n_points - 1) - T_coolant) * exp (- h_waterjet * dx / k)).

(** [T_new[1:-1] -= alpha * dt * (h_natural / (k * dx)) * (T[1:-1] - T_coolant)] *)
Definition side_loss (T : vec) : write1 :=
  MkWrite1 (in_slice 1 (n_points - 1))
           (fun i x => x - alpha * dt * (h_natural / (k * dx)) * (get1 T i - T_coolant)).

Definition writes (T : vec) : list write1 :=
  (if (2 <? n_points)%nat then [diffusion T] else [])
  ++ [free_end T; tip T]
  ++ (if (2 <? n_points)%nat then [side_loss T] else []).

(** [T_new = T.copy(); ...; T = T_new] *)
Definition step (T : vec) : vec :=
  fold_left (fun B w => assign1 w B) (writes T) T.

(** The pass read as a rule per node, computed from the field [T] of the
    previous step alone. *)
Definition node (T : vec) (i : nat) : Q :=
  if (i =? 0)%nat then value1 (free_end T) i (get1 T i)
  else if (i =? n_points - 1)%nat then value1 (tip T) i (get1 T i)
  else value1 (side_loss T) i (value1 (diffusion T) i (get1 T i)).

Definition center (T : vec) : Q := get1 T (Nat.min (n_points / 2) (n_points - 1)).

(** The weights of the interior update (diffusion and side loss together)
    are those of a convex combination, and the factor of the tip update lies
    between 0 and 1, as the exponential of a non-positive number does. *)
Definition stable : Prop :=
  2 * (alpha * dt / dx ^ 2) + alpha * dt * (h_natural / (k * dx)) <= 1
  /\ 0 <= exp (- h_waterjet * dx / k) <= 1.

Definition body (s : sim_state vec) : sim_state vec :=
  record_sample center
    (SimState (step (fld s)) (clock s + dt) (time_history s) (temp_history s)).

Definition init : sim_state vec := SimState (np_ones1 n_points T_init) 0 [] [].

Definition running (s : sim_state vec) : bool := Qltb (clock s) sim_time.

(** Python raises [ZeroDivisionError] on [k / (rho * cp)], on the division by
    [4 * alpha] and, in the first pass through the loop, on the division by
    [k * dx]. *)
Definition zero_divisor : bool :=
  Qeq_bool (rho * cp) 0 || Qeq_bool (4 * alpha) 0
  || (Qltb 0 sim_time && Qeq_bool (k * dx) 0).

Definition run : option (sim_state vec) :=
  while (enough_fuel sim_time dt) running (fun s => Continue (body s)) init.

(** The histories the function returns.  [radius_cyl] and [cone_angle] are
    read by the drawing code only. *)
Definition simulate_conical_tip_bar_fast : result (list Q * list Q) :=
  let _ := radius_cyl in
  let _ := cone_angle in
  if zero_divisor then ZeroDivision
  else match run with
       | Some s => Ok (time_history s, temp_history s)
       | None => OutOfFuel
       end.

End Solver.
End Cone.

(** * Properties *)

(** ** Indexed maps and assignments *)

Section IndexedMaps.

Context {A B : Type}.

Lemma mapi_from_length (f : nat -> A -> B) (l : list A) (n : nat) :
  length (mapi_from f n l) = length l.
Proof.
  revert n; induction l as [|x l IH]; intros n; simpl; [reflexivity|].
  now rewrite IH.
Qed.

Lemma mapi_length (f : nat -> A -> B) (l : list A) : length (mapi f l) = length l.
Proof. apply mapi_from_length. Qed.

Lemma mapi_from_nth (f : nat -> A -> B) (l : list A) (n i : nat) (da : A) (db : B) :
  (i < length l)%nat ->
  nth i (mapi_from f n l) db = f (n + i)%nat (nth i l da).
Proof.
  revert n i; induction l as [|x l IH]; intros n i Hi; simpl in *; [lia|].
  destruct i as [|i].
  - now rewrite Nat.add_0_r.
  - rewrite IH by lia. now rewrite Nat.add_succ_r.
Qed.

Lemma mapi_nth (f : nat -> A -> B) (l : list A) (i : nat) (da : A) (db : B) :
  (i < length l)%nat -> nth i (mapi f l) db = f i (nth i l da).
Proof. intros Hi. unfold mapi. now rewrite (mapi_from_nth f l 0 i da db Hi). Qed.

Lemma mapi_from_ext (f g : nat -> A -> B) (l : list A) (n : nat) :
  (forall i x, f i x = g i x) -> mapi_from f n l = mapi_from g n l.
Proof.
  intros H; revert n; induction l as [|x l IH]; intros n; simpl; [reflexivity|].
  now rewrite H, IH.
Qed.

End IndexedMaps.

Lemma mapi_from_compose {A B C : Type} (f : nat -> B -> C) (g : nat -> A -> B)
      (l : list A) (n : nat) :
  mapi_from f n (mapi_from g n l) = mapi_from (fun i x => f i (g i x)) n l.
Proof.
  revert n; induction l as [|x l IH]; intros n; simpl; [reflexivity|].
  now rewrite IH.
Qed.

Lemma mapi_from_id {A : Type} (l : list A) (n : nat) :
  mapi_from (fun _ x => x) n l = l.
Proof.
  revert n; induction l as [|x l IH]; intros n; simpl; [reflexivity|].
  now rewrite IH.
Qed.

Lemma mapi2_compose (f g : nat -> nat -> Q -> Q) (A : grid) :
  mapi2 f (mapi2 g A) = mapi2 (fun i j x => f i j (g i j x)) A.
Proof.
  unfold mapi2, mapi. rewrite mapi_from_compose.
  apply mapi_from_ext; intros i row. apply mapi_from_compose.
Qed.

Lemma mapi2_ext (f g : nat -> nat -> Q -> Q) (A : grid) :
  (forall i j x, f i j x = g i j x) -> mapi2 f A = mapi2 g A.
Proof.
  intros H. unfold mapi2, mapi. apply mapi_from_ext; intros i row.
  apply mapi_from_ext; intros j x. apply H.
Qed.

Lemma mapi2_id (A : grid) : mapi2 (fun _ _ x => x) A = A.
Proof.
  unfold mapi2, mapi.
  rewrite (mapi_from_ext _ (fun _ (row : list Q) => row)).
  - apply mapi_from_id.
  - intros i row. apply mapi_from_id.
Qed.

(** A sweep of assignments is one indexed map: each position receives the
    value of the last assignment that covers it and keeps its content when
    none does. *)
Lemma apply_writes_mapi2 (ws : list write) (A : grid) :
  apply_writes ws A = mapi2 (written ws) A.
Proof.
  unfold apply_writes. revert A; induction ws as [|w ws IH]; intros A; simpl.
  - symmetry. apply mapi2_id.
  - rewrite IH. unfold assign. rewrite mapi2_compose.
    apply mapi2_ext; intros i j x. unfold written; simpl.
    destruct (last_write ws i j); [reflexivity|].
    destruct (region w i j); reflexivity.
Qed.

Lemma shape_row (n0 n1 : nat) (A : grid) (i : nat) :
  shape n0 n1 A -> (i < n0)%nat -> length (nth i A []) = n1.
Proof.
  intros [HL HF] Hi. rewrite Forall_forall in HF. apply HF.
  apply nth_In. lia.
Qed.

Lemma get2_mapi2 (f : nat -> nat -> Q -> Q) (n0 n1 : nat) (A : grid) (i j : nat) :
  shape n0 n1 A -> (i < n0)%nat -> (j < n1)%nat ->
  get2 (mapi2 f A) i j = f i j (get2 A i j).
Proof.
  intros HS Hi Hj. unfold get2, mapi2.
  rewrite (mapi_nth _ A i [] []) by (destruct HS; lia).
  rewrite (mapi_nth _ (nth i A []) j 0 0) by (rewrite (shape_row n0 n1 A i HS Hi); lia).
  reflexivity.
Qed.

Lemma Forall_mapi_from {A B : Type} (P : A -> Prop) (R : B -> Prop)
      (g : nat -> A -> B) (l : list A) (n : nat) :
  (forall i x, P x -> R (g i x)) -> Forall P l -> Forall R (mapi_from g n l).
Proof.
  intros H HF; revert n; induction HF as [|x l Hx HF IH]; intros n; simpl;
    constructor; auto.
Qed.

Lemma shape_mapi2 (f : nat -> nat -> Q -> Q) (n0 n1 : nat) (A : grid) :
  shape n0 n1 A -> shape n0 n1 (mapi2 f A).
Proof.
  intros [HL HF]. split.
  - unfold mapi2. now rewrite mapi_length.
  - unfold mapi2, mapi.
    apply (Forall_mapi_from (fun row => length row = n1)); [|assumption].
    intros i row Hrow. now rewrite mapi_from_length.
Qed.

Lemma shape_apply_writes (ws : list write) (n0 n1 : nat) (A : grid) :
  shape n0 n1 A -> shape n0 n1 (apply_writes ws A).
Proof. intros HS. rewrite apply_writes_mapi2. now apply shape_mapi2. Qed.

Lemma get2_apply_writes (ws : list write) (n0 n1 : nat) (A : grid) (i j : nat) :
  shape n0 n1 A -> (i < n0)%nat -> (j < n1)%nat ->
  get2 (apply_writes ws A) i j = written ws i j (get2 A i j).
Proof. intros HS Hi Hj. rewrite apply_writes_mapi2. now apply (get2_mapi2 _ n0 n1). Qed.

Lemma shape_np_ones2 (n0 n1 : nat) (v : Q) : shape n0 n1 (np_ones2 n0 n1 v).
Proof.
  unfold np_ones2; split.
  - apply repeat_length.
  - apply Forall_forall. intros row Hrow. apply repeat_spec in Hrow. subst row.
    apply repeat_length.
Qed.

Lemma get2_np_ones2 (n0 n1 : nat) (v : Q) (i j : nat) :
  (i < n0)%nat -> (j < n1)%nat -> get2 (np_ones2 n0 n1 v) i j = 1 * v.
Proof.
  intros Hi Hj. unfold get2, np_ones2.
  rewrite nth_repeat_lt by assumption. now rewrite nth_repeat_lt by assumption.
Qed.

(** *** The last assignment of a concatenation, of a loop *)

Lemma last_write_app (ws1 ws2 : list write) (i j : nat) :
  last_write (ws1 ++ ws2) i j =
  match last_write ws2 i j with
  | Some v => Some v
  | None => last_write ws1 i j
  end.
Proof.
  induction ws1 as [|w ws1 IH]; simpl.
  - destruct (last_write ws2 i j); reflexivity.
  - rewrite IH. destruct (last_write ws2 i j); reflexivity.
Qed.

Lemma last_write_none (ws : list write) (i j : nat) :
  last_write ws i j = None <-> forall w, In w ws -> region w i j = false.
Proof.
  induction ws as [|w ws IH]; simpl.
  - split; [intros _ w []|reflexivity].
  - destruct (last_write ws i j) eqn:E.
    + split; [discriminate|]. intros H.
      assert (HN : Some q = None) by (apply IH; intros w' Hw'; apply H; now right).
      discriminate.
    + destruct (region w i j) eqn:R.
      * split; [discriminate|]. intros H. rewrite (H w) in R by now left. discriminate.
      * split; [|reflexivity]. intros _ w' [<-|Hw']; [assumption|].
        now apply (proj1 IH).
Qed.

Lemma last_write_some (ws : list write) (i j : nat) (v : Q) :
  last_write ws i j = Some v ->
  exists w, In w ws /\ region w i j = true /\ value w i j = v.
Proof.
  induction ws as [|w ws IH]; simpl; [discriminate|].
  destruct (last_write ws i j) eqn:E.
  - intros H. destruct (IH H) as (w' & Hin & Hr & Hv). exists w'. auto.
  - destruct (region w i j) eqn:R; [|discriminate].
    intros [= <-]. exists w. auto.
Qed.

Ltac reflect_nat :=
  repeat match goal with
  | H : (_ =? _)%nat = true |- _ => apply Nat.eqb_eq in H
  | H : (_ =? _)%nat = false |- _ => apply Nat.eqb_neq in H
  | H : (_ <? _)%nat = true |- _ => apply Nat.ltb_lt in H
  | H : (_ <? _)%nat = false |- _ => apply Nat.ltb_ge in H
  | H : (_ <=? _)%nat = true |- _ => apply Nat.leb_le in H
  | H : (_ <=? _)%nat = false |- _ => apply Nat.leb_gt in H
  end.

Ltac case_nat :=
  repeat match goal with
  | |- context [(?a =? ?b)%nat] => destruct (a =? b)%nat eqn:?
  | |- context [(?a <? ?b)%nat] => destruct (a <? b)%nat eqn:?
  | |- context [(?a <=? ?b)%nat] => destruct (a <=? b)%nat eqn:?
  end; reflect_nat.

Lemma last_write_unique (ws : list write) (i j : nat) (v : Q) :
  (exists w, In w ws /\ region w i j = true) ->
  (forall w, In w ws -> region w i j = true -> value w i j = v) ->
  last_write ws i j = Some v.
Proof.
  intros (w & Hin & Hr) Hall.
  destruct (last_write ws i j) as [v'|] eqn:E.
  - apply last_write_some in E. destruct E as (w' & Hin' & Hr' & Hv').
    now rewrite <- Hv', (Hall w' Hin' Hr').
  - rewrite last_write_none in E. rewrite (E w Hin) in Hr. discriminate.
Qed.

(** Consistent assignments may be performed in any order. *)
Lemma last_write_perm (ws ws' : list write) (i j : nat) :
  consistent ws -> Permutation ws ws' -> last_write ws' i j = last_write ws i j.
Proof.
  intros HC HP.
  destruct (last_write ws i j) as [v|] eqn:E.
  - apply last_write_some in E. destruct E as (w & Hin & Hr & Hv).
    apply last_write_unique.
    + exists w; split; [now apply (Permutation_in _ HP)|assumption].
    + intros w' Hin' Hr'. rewrite <- Hv. apply HC; auto.
      apply (Permutation_in _ (Permutation_sym HP)); assumption.
  - rewrite last_write_none in *. intros w Hin. apply E.
    apply (Permutation_in _ (Permutation_sym HP)); assumption.
Qed.

Lemma apply_writes_perm (ws ws' : list write) (A : grid) :
  consistent ws -> Permutation ws ws' -> apply_writes ws' A = apply_writes ws A.
Proof.
  intros HC HP. rewrite !apply_writes_mapi2. apply mapi2_ext; intros i j x.
  unfold written. now rewrite (last_write_perm ws ws' i j HC HP).
Qed.

Lemma region_point (i0 j0 : nat) (v : Q) (i j : nat) :
  region (point i0 j0 v) i j = true <-> i = i0 /\ j = j0.
Proof.
  simpl. rewrite andb_true_iff, !Nat.eqb_eq. tauto.
Qed.

Lemma in_range (lo hi i : nat) : In i (range lo hi) <-> (lo <= i < hi)%nat.
Proof. unfold range. rewrite in_seq. lia. Qed.

(** Pointwise equal grids of one shape are equal. *)
Lemma grid_ext (n0 n1 : nat) (A B : grid) :
  shape n0 n1 A -> shape n0 n1 B ->
  (forall i j, (i < n0)%nat -> (j < n1)%nat -> get2 A i j = get2 B i j) ->
  A = B.
Proof.
  intros HA HB H.
  apply (nth_ext A B [] []); [destruct HA, HB; congruence|].
  intros i Hi. assert (Hi' : (i < n0)%nat) by (destruct HA; lia).
  apply (nth_ext _ _ 0 0).
  - now rewrite (shape_row n0 n1 A i HA Hi'), (shape_row n0 n1 B i HB Hi').
  - intros j Hj. rewrite (shape_row n0 n1 A i HA Hi') in Hj. now apply H.
Qed.

Lemma jacobi_sweep_shape (rule : grid -> nat -> nat -> Q) (n0 n1 : nat) (T : grid) :
  shape n0 n1 T -> shape n0 n1 (jacobi_sweep rule T).
Proof. apply shape_mapi2. Qed.

Lemma get2_jacobi_sweep (rule : grid -> nat -> nat -> Q) (n0 n1 : nat) (T : grid)
      (i j : nat) :
  shape n0 n1 T -> (i < n0)%nat -> (j < n1)%nat ->
  get2 (jacobi_sweep rule T) i j = rule T i j.
Proof. intros HS Hi Hj. unfold jacobi_sweep. now rewrite (get2_mapi2 _ n0 n1). Qed.

(** ** Square bar: the sweep node by node *)

Section SquareSweep.

Variable res : resolution.
Variables k rho cp h_waterjet h_natural T_coolant width height : Q.

Local Abbreviation nz := (Square.nz res).
Local Abbreviation nx := (Square.nx res).
Local Abbreviation writes :=
  (Square.writes res k rho cp h_waterjet h_natural T_coolant width height).
Local Abbreviation step :=
  (Square.step res k rho cp h_waterjet h_natural T_coolant width height).
Local Abbreviation node :=
  (Square.node res k rho cp h_waterjet h_natural T_coolant width height).

Lemma square_nz_ge : (3 <= nz)%nat.
Proof. unfold Square.nz. lia. Qed.

Lemma square_nx_ge : (3 <= nx)%nat.
Proof. unfold Square.nx. lia. Qed.

Lemma square_writes_all (T : grid) :
  writes T = [Square.interior res k rho cp width height T;
              Square.bottom res k rho cp h_waterjet T_coolant width height T;
              Square.side_first res k rho cp h_natural T_coolant width height T;
              Square.side_last res k rho cp h_natural T_coolant width height T;
              Square.top res k rho cp h_natural T_coolant width height T].
Proof.
  pose proof square_nz_ge. pose proof square_nx_ge. unfold Square.writes.
  replace (2 <? nz)%nat with true by (symmetry; apply Nat.ltb_lt; lia).
  replace (1 <? nz)%nat with true by (symmetry; apply Nat.ltb_lt; lia).
  replace (2 <? nx)%nat with true by (symmetry; apply Nat.ltb_lt; lia).
  reflexivity.
Qed.

Lemma square_written (T : grid) (i j : nat) :
  (i < nz)%nat -> (j < nx)%nat ->
  written (writes T) i j (get2 T i j) = node T i j.
Proof.
  intros Hi Hj. pose proof square_nz_ge. pose proof square_nx_ge.
  rewrite square_writes_all. unfold written, Square.node. simpl. unfold in_slice.
  case_nat; simpl; try reflexivity; try lia.
Qed.

Lemma square_step_shape (T : grid) : shape nz nx T -> shape nz nx (step T).
Proof. apply shape_apply_writes. Qed.

Lemma square_step_node (T : grid) (i j : nat) :
  shape nz nx T -> (i < nz)%nat -> (j < nx)%nat ->
  get2 (step T) i j = node T i j.
Proof.
  intros HS Hi Hj. unfold Square.step.
  rewrite (get2_apply_writes _ nz nx) by assumption.
  now apply square_written.
Qed.

Lemma square_writes_consistent (T : grid) : consistent (writes T).
Proof.
  pose proof square_nz_ge. pose proof square_nx_ge.
  rewrite square_writes_all. intros w1 w2 i j H1 H2.
  simpl in H1, H2.
  repeat match goal with
         | H : _ \/ _ |- _ => destruct H
         | H : False |- _ => destruct H
         end; subst; simpl; unfold in_slice; try reflexivity;
    case_nat; simpl; intros; try discriminate; try reflexivity; try lia.
Qed.

End SquareSweep.

(** ** Cylindrical bar: the sweep node by node *)

Section CylSweep.

Variable res : resolution.
Variables k rho cp h_waterjet h_natural T_coolant diameter height : Q.

Local Abbreviation nr := (Cyl.nr res).
Local Abbreviation nz := (Cyl.nz res).
Local Abbreviation writes :=
  (Cyl.writes res k rho cp h_waterjet h_natural T_coolant diameter height).
Local Abbreviation step :=
  (Cyl.step res k rho cp h_waterjet h_natural T_coolant diameter height).
Local Abbreviation node :=
  (Cyl.node res k rho cp h_waterjet h_natural T_coolant diameter height).

Lemma cyl_nr_ge : (3 <= nr)%nat.
Proof. unfold Cyl.nr. lia. Qed.

Lemma cyl_nz_ge : (3 <= nz)%nat.
Proof. unfold Cyl.nz. lia. Qed.

(** Every scalar assignment of the five loops targets a node of the grid and
    stores the node rule there. *)
Lemma cyl_in_writes (T : grid) (w : write) :
  In w (writes T) ->
  exists i0 j0, (i0 < nr)%nat /\ (j0 < nz)%nat /\ w = point i0 j0 (node T i0 j0).
Proof.
  pose proof cyl_nr_ge. pose proof cyl_nz_ge.
  unfold Cyl.writes. rewrite !in_app_iff.
  unfold Cyl.interior_loop, Cyl.centerline_loop, Cyl.bottom_loop, Cyl.top_loop,
    Cyl.outer_loop.
  rewrite in_flat_map. rewrite !in_map_iff.
  intros [(i0 & Hi0 & Hw)|[(j0 & Hw & Hj0)|[(i0 & Hw & Hi0)|[(i0 & Hw & Hi0)|(j0 & Hw & Hj0)]]]].
  - apply in_map_iff in Hw. destruct Hw as (j0 & Hw & Hj0).
    apply in_range in Hi0, Hj0. exists i0, j0. repeat split; try lia.
    subst w. f_equal. unfold Cyl.node. case_nat; try lia. reflexivity.
  - apply in_range in Hj0. exists 0%nat, j0. repeat split; try lia.
    subst w. f_equal. unfold Cyl.node. case_nat; try lia. reflexivity.
  - apply in_range in Hi0. exists i0, 0%nat. repeat split; try lia.
    subst w. f_equal.
  - apply in_range in Hi0. exists i0, (nz - 1)%nat. repeat split; try lia.
    subst w. f_equal. unfold Cyl.node. case_nat; try lia. reflexivity.
  - apply in_range in Hj0. exists (nr - 1)%nat, j0. repeat split; try lia.
    subst w. f_equal. unfold Cyl.node. case_nat; try lia. reflexivity.
Qed.

(** Every node of the grid is the target of one of the loops. *)
Lemma cyl_writes_cover (T : grid) (i j : nat) :
  (i < nr)%nat -> (j < nz)%nat -> In (point i j (node T i j)) (writes T).
Proof.
  intros Hi Hj. pose proof cyl_nr_ge. pose proof cyl_nz_ge.
  unfold Cyl.writes. rewrite !in_app_iff.
  unfold Cyl.interior_loop, Cyl.centerline_loop, Cyl.bottom_loop, Cyl.top_loop,
    Cyl.outer_loop.
  rewrite in_flat_map. rewrite !in_map_iff. unfold Cyl.node.
  destruct (j =? 0)%nat eqn:Ej0; [|destruct (j =? nz - 1)%nat eqn:Ejt;
    [|destruct (i =? 0)%nat eqn:Ei0; [|destruct (i =? nr - 1)%nat eqn:Eio]]];
    reflect_nat.
  - subst j. right; right; left. exists i. split; [reflexivity|]. apply in_range; lia.
  - subst j. right; right; right; left. exists i. split; [reflexivity|].
    apply in_range; lia.
  - subst i. right; left. exists j. split; [reflexivity|]. apply in_range; lia.
  - subst i. right; right; right; right. exists j. split; [reflexivity|].
    apply in_range; lia.
  - left. exists i. split; [apply in_range; lia|].
    apply in_map_iff. exists j. split; [reflexivity|]. apply in_range; lia.
Qed.

Lemma cyl_last_write (T : grid) (i j : nat) :
  (i < nr)%nat -> (j < nz)%nat -> last_write (writes T) i j = Some (node T i j).
Proof.
  intros Hi Hj. apply last_write_unique.
  - exists (point i j (node T i j)). split; [now apply cyl_writes_cover|].
    now apply region_point.
  - intros w Hin Hr. apply cyl_in_writes in Hin.
    destruct Hin as (i0 & j0 & _ & _ & ->).
    apply region_point in Hr. destruct Hr as [-> ->]. reflexivity.
Qed.

Lemma cyl_step_shape (T : grid) : shape nr nz T -> shape nr nz (step T).
Proof. apply shape_apply_writes. Qed.

Lemma cyl_step_node (T : grid) (i j : nat) :
  shape nr nz T -> (i < nr)%nat -> (j < nz)%nat ->
  get2 (step T) i j = node T i j.
Proof.
  intros HS Hi Hj. unfold Cyl.step.
  rewrite (get2_apply_writes _ nr nz) by assumption.
  unfold written. now rewrite cyl_last_write.
Qed.

Lemma cyl_writes_consistent (T : grid) : consistent (writes T).
Proof.
  intros w1 w2 i j H1 H2 R1 R2.
  apply cyl_in_writes in H1, H2.
  destruct H1 as (i1 & j1 & _ & _ & ->). destruct H2 as (i2 & j2 & _ & _ & ->).
  apply region_point in R1, R2. destruct R1 as [-> ->], R2 as [E1 E2].
  simpl. now rewrite E1, E2.
Qed.

End CylSweep.

(** ** Centerline of the cylinder *)

(** C4.  In the cylindrical solver, for every interior axial index [j]
    ([0 < j < nz - 1]) and every field [T] of the solver's shape, one pass
    leaves at the centerline node [(0, j)] exactly
    [T[0,j] + alpha*dt*(2*(T[1,j] - T[0,j])/dr^2
                        + (T[0,j+1] - 2*T[0,j] + T[0,j-1])/dz^2)],
    the limiting form of the radial terms at the axis; none of the later
    loops of the pass overwrites it. *)
Theorem cyl_centerline_update
        (res : resolution) (k rho cp h_waterjet h_natural T_coolant diameter height : Q)
        (T : grid) (j : nat) :
  shape (Cyl.nr res) (Cyl.nz res) T ->
  (0 < j < Cyl.nz res - 1)%nat ->
  get2 (Cyl.step res k rho cp h_waterjet h_natural T_coolant diameter height T) 0 j
  = get2 T 0 j
    + Cyl.alpha k rho cp * Cyl.dt res k rho cp diameter height
      * (2 * (get2 T 1 j - get2 T 0 j) / Cyl.dr res diameter ^ 2
         + (get2 T 0 (j + 1) - 2 * get2 T 0 j + get2 T 0 (j - 1)) / Cyl.dz res height ^ 2).
Proof.
  intros HS Hj. pose proof (cyl_nr_ge res).
  rewrite cyl_step_node by (assumption || lia).
  unfold Cyl.node. case_nat; try lia. reflexivity.
Qed.

Lemma cyl_centerline_update_witness :
  get2 (Cyl.step Low 50 7800 500 5000 10 20 0.01905 0.075 (np_ones2 12 25 900)) 0 1
  = get2 (np_ones2 12 25 900) 0 1
    + Cyl.alpha 50 7800 500 * Cyl.dt Low 50 7800 500 0.01905 0.075
      * (2 * (get2 (np_ones2 12 25 900) 1 1 - get2 (np_ones2 12 25 900) 0 1)
           / Cyl.dr Low 0.01905 ^ 2
         + (get2 (np_ones2 12 25 900) 0 (1 + 1) - 2 * get2 (np_ones2 12 25 900) 0 1
            + get2 (np_ones2 12 25 900) 0 (1 - 1)) / Cyl.dz Low 0.075 ^ 2).
Proof.
  apply (cyl_centerline_update Low 50 7800 500 5000 10 20 0.01905 0.075
                               (np_ones2 12 25 900) 1).
  - split; [reflexivity|]. simpl. repeat constructor.
  - simpl. lia.
Defined.

(** ** Synchronous sweeps *)

(** C6.  Each pass of the square and of the cylindrical solver is a Jacobi
    sweep: the new field is the node rule applied to the field of the
    previous step at every node (interior, centerline and faces alike), and
    performing the assignments of the pass in any other order yields the
    same new field. *)
Theorem sweeps_are_jacobi
        (res : resolution) (k rho cp h_waterjet h_natural T_coolant : Q)
        (width height diameter cyl_height : Q) (Ts Tc : grid) :
  shape (Square.nz res) (Square.nx res) Ts ->
  shape (Cyl.nr res) (Cyl.nz res) Tc ->
  (Square.step res k rho cp h_waterjet h_natural T_coolant width height Ts
   = jacobi_sweep (Square.node res k rho cp h_waterjet h_natural T_coolant width height) Ts
   /\ forall ws,
       Permutation
         (Square.writes res k rho cp h_waterjet h_natural T_coolant width height Ts) ws ->
       apply_writes ws Ts
       = Square.step res k rho cp h_waterjet h_natural T_coolant width height Ts)
  /\
  (Cyl.step res k rho cp h_waterjet h_natural T_coolant diameter cyl_height Tc
   = jacobi_sweep (Cyl.node res k rho cp h_waterjet h_natural T_coolant diameter cyl_height) Tc
   /\ forall ws,
       Permutation
         (Cyl.writes res k rho cp h_waterjet h_natural T_coolant diameter cyl_height Tc) ws ->
       apply_writes ws Tc
       = Cyl.step res k rho cp h_waterjet h_natural T_coolant diameter cyl_height Tc).
Proof.
  intros HSs HSc. split; split.
  - apply (grid_ext (Square.nz res) (Square.nx res)).
    + now apply square_step_shape.
    + now apply jacobi_sweep_shape.
    + intros i j Hi Hj. rewrite square_step_node by assumption.
      now rewrite (get2_jacobi_sweep _ (Square.nz res) (Square.nx res)).
  - intros ws HP. unfold Square.step. apply apply_writes_perm; [|assumption].
    apply square_writes_consistent.
  - apply (grid_ext (Cyl.nr res) (Cyl.nz res)).
    + now apply cyl_step_shape.
    + now apply jacobi_sweep_shape.
    + intros i j Hi Hj. rewrite cyl_step_node by assumption.
      now rewrite (get2_jacobi_sweep _ (Cyl.nr res) (Cyl.nz res)).
  - intros ws HP. unfold Cyl.step. apply apply_writes_perm; [|assumption].
    apply cyl_writes_consistent.
Qed.

Lemma sweeps_are_jacobi_witness :
  (Square.step Low 50 7800 500 5000 10 20 0.006 0.075 (np_ones2 15 15 900)
   = jacobi_sweep (Square.node Low 50 7800 500 5000 10 20 0.006 0.075) (np_ones2 15 15 900)
   /\ forall ws,
       Permutation (Square.writes Low 50 7800 500 5000 10 20 0.006 0.075 (np_ones2 15 15 900)) ws ->
       apply_writes ws (np_ones2 15 15 900)
       = Square.step Low 50 7800 500 5000 10 20 0.006 0.075 (np_ones2 15 15 900))
  /\
  (Cyl.step Low 50 7800 500 5000 10 20 0.01905 0.075 (np_ones2 12 25 900)
   = jacobi_sweep (Cyl.node Low 50 7800 500 5000 10 20 0.01905 0.075) (np_ones2 12 25 900)
   /\ forall ws,
       Permutation (Cyl.writes Low 50 7800 500 5000 10 20 0.01905 0.075 (np_ones2 12 25 900)) ws ->
       apply_writes ws (np_ones2 12 25 900)
       = Cyl.step Low 50 7800 500 5000 10 20 0.01905 0.075 (np_ones2 12 25 900)).
Proof.
  apply (sweeps_are_jacobi Low 50 7800 500 5000 10 20 0.006 0.075 0.01905 0.075).
  - split; [reflexivity|]. simpl. repeat constructor.
  - split; [reflexivity|]. simpl. repeat constructor.
Defined.

(** ** Faces and corners of the square bar *)

(** No assignment of the pass covers the two corners of the last row: they
    keep the value they had. *)
Lemma square_top_corners_kept
      (res : resolution) (k rho cp h_waterjet h_natural T_coolant width height : Q)
      (T : grid) (j : nat) :
  shape (Square.nz res) (Square.nx res) T ->
  j = 0%nat \/ j = (Square.nx res - 1)%nat ->
  last_write (Square.writes res k rho cp h_waterjet h_natural T_coolant width height T)
             (Square.nz res - 1) j = None
  /\ get2 (Square.step res k rho cp h_waterjet h_natural T_coolant width height T)
          (Square.nz res - 1) j
     = get2 T (Square.nz res - 1) j.
Proof.
  intros HS Hj. pose proof (square_nz_ge res). pose proof (square_nx_ge res). split.
  - rewrite square_writes_all. simpl. unfold in_slice.
    destruct Hj; subst j; case_nat; simpl; try reflexivity; lia.
  - rewrite square_step_node by (assumption || lia).
    unfold Square.node, in_slice. destruct Hj; subst j; case_nat; simpl; try reflexivity; lia.
Qed.

(** C7.  On the run of the square-bar scenario ([k = 50], [rho = 7800],
    [cp = 500], [h_jet = 5000], [h_natural = 10], coolant at 20, bar at 900,
    6 mm by 75 mm, lowest resolution) the first pass writes the two corners
    of the jet face, which cool, but none of its assignments covers the two
    corners of the opposite face [(14, 0)] and [(14, 14)]: they carry their
    previous value unchanged. *)
Theorem square_top_corners_scenario :
  let T := np_ones2 15 15 900 in
  let ws := Square.writes Low 50 7800 500 5000 10 20 0.006 0.075 T in
  let T' := Square.step Low 50 7800 500 5000 10 20 0.006 0.075 T in
  (forallb (fun w => negb (region w 14 0) && negb (region w 14 14)) ws = true
   /\ get2 T' 14 0 = get2 T 14 0 /\ get2 T' 14 14 = get2 T 14 14)
  /\ get2 T' 0 0 < get2 T 0 0 /\ get2 T' 0 14 < get2 T 0 14.
Proof.
  vm_compute. repeat split; reflexivity.
Qed.

(** ** Comparisons, [min] and [max] *)

Lemma Qltb_true (a b : Q) : Qltb a b = true <-> a < b.
Proof.
  unfold Qltb. rewrite negb_true_iff. rewrite <- not_true_iff_false, Qle_bool_iff.
  split; [apply Qnot_le_lt|apply Qlt_not_le].
Qed.

Lemma Qltb_false (a b : Q) : Qltb a b = false <-> b <= a.
Proof. unfold Qltb. rewrite negb_false_iff. apply Qle_bool_iff. Qed.

Lemma py_min_le_l (a b : Q) : py_min a b <= a.
Proof. unfold py_min. destruct (Qltb b a) eqn:E; [apply Qltb_true in E; lra|lra]. Qed.

Lemma py_min_le_r (a b : Q) : py_min a b <= b.
Proof. unfold py_min. destruct (Qltb b a) eqn:E; [lra|apply Qltb_false in E; lra]. Qed.

Lemma py_min_nonneg (a b : Q) : 0 <= a -> 0 <= b -> 0 <= py_min a b.
Proof. unfold py_min. destruct (Qltb b a); auto. Qed.

Lemma py_max_cases (a b : Q) : py_max a b = a \/ (a < b /\ py_max a b = b).
Proof.
  unfold py_max. destruct (Qltb a b) eqn:E; [right|now left].
  split; [now apply Qltb_true|reflexivity].
Qed.

Lemma py_max_ge_l (a b : Q) : a <= py_max a b.
Proof. destruct (py_max_cases a b) as [->|[H ->]]; lra. Qed.

Lemma Qsq_nonneg (x : Q) : 0 <= x ^ 2.
Proof. change (x ^ 2) with (x * x). nra. Qed.

Lemma Qdiv_mul (a b : Q) : ~ b == 0 -> (a / b) * b == a.
Proof. intros. field. assumption. Qed.

Lemma Qdiv_nonneg (a b : Q) : 0 <= a -> 0 < b -> 0 <= a / b.
Proof. intros Ha Hb. apply Qle_shift_div_l; [assumption|lra]. Qed.

Lemma Qdiv_pos (a b : Q) : 0 < a -> 0 < b -> 0 < a / b.
Proof. intros Ha Hb. apply Qlt_shift_div_l; [assumption|lra]. Qed.

Lemma Qdiv_le_denom (x a m n : Q) :
  0 <= x -> 0 < a -> 0 < n -> n <= m -> x / (m * a) <= x / (n * a).
Proof.
  intros Hx Ha Hn Hnm.
  assert (Hma : 0 < m * a) by nra. assert (Hna : 0 < n * a) by nra.
  pose proof (Qdiv_mul x (m * a) ltac:(lra)) as E.
  apply Qle_shift_div_l; [assumption|].
  pose proof (Qdiv_nonneg x (m * a) Hx Hma) as Hq.
  revert E Hq. generalize (x / (m * a)). intros q E Hq. nra.
Qed.

(** ** Time step *)

Lemma alpha_pos (k rho cp : Q) : 0 < k -> 0 < rho -> 0 < cp -> 0 < k / (rho * cp).
Proof. intros. apply Qdiv_pos; nra. Qed.

Lemma square_dt_bound (res : resolution) (k rho cp width height : Q) :
  0 < k -> 0 < rho -> 0 < cp ->
  Square.dt res k rho cp width height = 0.001
  \/ Square.dt res k rho cp width height
     <= stability_bound 0.25 2
          (py_min (Square.dx res width ^ 2) (Square.dz res height ^ 2))
          (Square.alpha k rho cp).
Proof.
  intros Hk Hr Hc. unfold Square.dt, stability_bound.
  match goal with |- py_max ?a ?b = _ \/ _ =>
    destruct (py_max_cases a b) as [->|[_ ->]]; [now left|right] end.
  apply Qdiv_le_denom; try lra.
  - pose proof (py_min_nonneg _ _ (Qsq_nonneg (Square.dx res width))
                              (Qsq_nonneg (Square.dz res height))). lra.
  - now apply alpha_pos.
Qed.

Lemma cyl_dt_bound (res : resolution) (k rho cp diameter height : Q) :
  0 < k -> 0 < rho -> 0 < cp ->
  Cyl.dt res k rho cp diameter height = 0.001
  \/ Cyl.dt res k rho cp diameter height
     <= stability_bound 0.1 2
          (py_min (Cyl.dr res diameter ^ 2) (Cyl.dz res height ^ 2))
          (Cyl.alpha k rho cp).
Proof.
  intros Hk Hr Hc. unfold Cyl.dt, stability_bound.
  match goal with |- py_max ?a ?b = _ \/ _ =>
    destruct (py_max_cases a b) as [->|[_ ->]]; [now left|right] end.
  eapply Qle_trans; [apply py_min_le_l|]. unfold Cyl.dt_stable.
  apply Qdiv_le_denom; try lra.
  - pose proof (py_min_nonneg _ _ (Qsq_nonneg (Cyl.dr res diameter))
                              (Qsq_nonneg (Cyl.dz res height))). lra.
  - now apply alpha_pos.
Qed.

Lemma cone_dt_bound (res : resolution) (k rho cp cyl_height cone_height : Q) :
  0 < k -> 0 < rho -> 0 < cp ->
  Cone.dt res k rho cp cyl_height cone_height = 0.001
  \/ Cone.dt res k rho cp cyl_height cone_height
     <= stability_bound 0.3 1 (Cone.dx res cyl_height cone_height ^ 2)
                        (Cone.alpha k rho cp).
Proof.
  intros Hk Hr Hc. unfold Cone.dt, stability_bound.
  match goal with |- py_max ?a ?b = _ \/ _ =>
    destruct (py_max_cases a b) as [->|[_ ->]]; [now left|right] end.
  apply Qdiv_le_denom; try lra.
  - pose proof (Qsq_nonneg (Cone.dx res cyl_height cone_height)). lra.
  - now apply alpha_pos.
Qed.

(** The claim as the specification words it fails where the floor of 0.001 s
    is the larger of the two: the 6 mm by 75 mm steel bar of the scenario at
    the medium resolution has [dt = 0.001] above the bound. *)
Lemma dt_floor_exceeds_bound :
  ~ (Square.dt Medium 50 7800 500 0.006 0.075
     <= stability_bound 0.25 2
          (py_min (Square.dx Medium 0.006 ^ 2) (Square.dz Medium 0.075 ^ 2))
          (Square.alpha 50 7800 500)).
Proof. vm_compute. intros H. apply H. reflexivity. Qed.

(** C1 (amended).  For every material with [k, rho, cp > 0] and every
    geometry, the time step each solver selects is either the floor 0.001 s
    or it satisfies [dt <= C * min(spacing^2) / (n * alpha)], with
    [C = 0.25, n = 2] for the square solver, [C = 0.1, n = 2] for the
    cylindrical solver and [C = 0.3, n = 1] for the conical solver; this
    holds at every resolution tier.  The floor takes precedence over the
    bound. *)
Theorem dt_floor_or_stable
        (res : resolution) (k rho cp width height diameter cyl_height : Q)
        (cone_cyl_height cone_height : Q) :
  0 < k -> 0 < rho -> 0 < cp ->
  (Square.dt res k rho cp width height = 0.001
   \/ Square.dt res k rho cp width height
      <= stability_bound 0.25 2
           (py_min (Square.dx res width ^ 2) (Square.dz res height ^ 2))
           (Square.alpha k rho cp))
  /\ (Cyl.dt res k rho cp diameter cyl_height = 0.001
      \/ Cyl.dt res k rho cp diameter cyl_height
         <= stability_bound 0.1 2
              (py_min (Cyl.dr res diameter ^ 2) (Cyl.dz res cyl_height ^ 2))
              (Cyl.alpha k rho cp))
  /\ (Cone.dt res k rho cp cone_cyl_height cone_height = 0.001
      \/ Cone.dt res k rho cp cone_cyl_height cone_height
         <= stability_bound 0.3 1 (Cone.dx res cone_cyl_height cone_height ^ 2)
                            (Cone.alpha k rho cp)).
Proof.
  intros Hk Hr Hc. split; [|split].
  - now apply square_dt_bound.
  - now apply cyl_dt_bound.
  - now apply cone_dt_bound.
Qed.

Lemma dt_floor_or_stable_witness :
  (Square.dt Medium 50 7800 500 0.006 0.075 = 0.001
   \/ Square.dt Medium 50 7800 500 0.006 0.075
      <= stability_bound 0.25 2
           (py_min (Square.dx Medium 0.006 ^ 2) (Square.dz Medium 0.075 ^ 2))
           (Square.alpha 50 7800 500))
  /\ (Cyl.dt Medium 50 7800 500 0.01905 0.075 = 0.001
      \/ Cyl.dt Medium 50 7800 500 0.01905 0.075
         <= stability_bound 0.1 2
              (py_min (Cyl.dr Medium 0.01905 ^ 2) (Cyl.dz Medium 0.075 ^ 2))
              (Cyl.alpha 50 7800 500))
  /\ (Cone.dt Medium 50 7800 500 0.065 0.010 = 0.001
      \/ Cone.dt Medium 50 7800 500 0.065 0.010
         <= stability_bound 0.3 1 (Cone.dx Medium 0.065 0.010 ^ 2)
                            (Cone.alpha 50 7800 500)).
Proof.
  apply (dt_floor_or_stable Medium 50 7800 500 0.006 0.075 0.01905 0.075 0.065 0.010);
    reflexivity.
Defined.

(** ** While loops *)

Section WhileLoops.

Context {S : Type}.
Variable cond : S -> bool.
Variable body : S -> outcome S.

Lemma iterate_shift (f : S -> S) (n : nat) (s : S) :
  iterate f (Datatypes.S n) s = iterate f n (f s).
Proof. induction n as [|n IH]; simpl in *; [reflexivity|]. now rewrite IH. Qed.

(** A loop that returns has made some number [n] of passes; the loop test
    held before each of them; none but the last ended in [break]; and either
    the last pass ended in [break] or the loop test fails in the end. *)
Lemma while_trace (fuel : nat) (s s' : S) :
  while fuel cond body s = Some s' ->
  exists n : nat,
    s' = iterate (next body) n s
    /\ (forall m, (m < n)%nat -> cond (iterate (next body) m s) = true)
    /\ (forall m, (Datatypes.S m < n)%nat -> breaks body (iterate (next body) m s) = false)
    /\ ((cond s' = false
         /\ forall m, (m < n)%nat -> breaks body (iterate (next body) m s) = false)
        \/ exists m, n = Datatypes.S m /\ breaks body (iterate (next body) m s) = true).
Proof.
  revert s; induction fuel as [|fuel IH]; intros s; simpl.
  - destruct (cond s) eqn:C; [discriminate|]. intros [= <-].
    exists 0%nat. simpl. repeat split; try (intros; lia). left. split; [assumption|].
    intros; lia.
  - destruct (cond s) eqn:C.
    + destruct (body s) as [s1|s1] eqn:B.
      * intros H. destruct (IH s1 H) as (n & Hs' & Hc & Hb & Hend).
        assert (N : next body s = s1) by (unfold next; now rewrite B).
        assert (K : breaks body s = false) by (unfold breaks; now rewrite B).
        exists (Datatypes.S n). rewrite iterate_shift, N. split; [assumption|].
        split; [|split].
        -- intros [|m] Hm; [assumption|]. rewrite iterate_shift, N. apply Hc. lia.
        -- intros [|m] Hm; [assumption|]. rewrite iterate_shift, N. apply Hb. lia.
        -- destruct Hend as [[Hc' Hb']|(m & -> & Hm)].
           ++ left. split; [assumption|].
              intros [|m] Hm; [assumption|]. rewrite iterate_shift, N. apply Hb'. lia.
           ++ right. exists (Datatypes.S m). split; [reflexivity|].
              now rewrite iterate_shift, N.
      * intros [= <-].
        assert (N : next body s = s1) by (unfold next; now rewrite B).
        assert (K : breaks body s = true) by (unfold breaks; now rewrite B).
        exists 1%nat. simpl. rewrite N. split; [reflexivity|].
        split; [|split].
        -- intros m Hm. assert (m = 0)%nat by lia. now subst m.
        -- intros; lia.
        -- right. exists 0%nat. split; [reflexivity|assumption].
    + intros [= <-]. exists 0%nat. simpl. repeat split; try (intros; lia).
      left. split; [assumption|]. intros; lia.
Qed.

(** A loop whose test fails after at most [fuel] passes returns. *)
Lemma while_total (fuel : nat) (s : S) :
  (exists n, (n <= fuel)%nat /\ cond (iterate (next body) n s) = false) ->
  exists s', while fuel cond body s = Some s'.
Proof.
  revert s; induction fuel as [|fuel IH]; intros s (n & Hn & Hc); simpl.
  - assert (n = 0)%nat by lia. subst n. simpl in Hc. rewrite Hc. eauto.
  - destruct (cond s) eqn:C; [|eauto].
    destruct (body s) as [s1|s1] eqn:B; [|eauto].
    apply IH. destruct n as [|n]; [simpl in Hc; congruence|].
    exists n. split; [lia|]. rewrite iterate_shift in Hc.
    unfold next in Hc at 2. now rewrite B in Hc.
Qed.

End WhileLoops.

Lemma next_continue {S : Type} (f : S -> S) (s : S) :
  next (fun s => Continue (f s)) s = f s.
Proof. reflexivity. Qed.

Lemma iterate_ext {S : Type} (f g : S -> S) (n : nat) (s : S) :
  (forall x, f x = g x) -> iterate f n s = iterate g n s.
Proof. intros H. induction n as [|n IH]; simpl; [reflexivity|]. now rewrite IH, H. Qed.

(** ** Clock and fuel *)

Lemma Q_of_nat_S (n : nat) : Q_of_nat (Datatypes.S n) == Q_of_nat n + 1.
Proof.
  unfold Q_of_nat. rewrite Nat2Z.inj_succ. unfold Z.succ.
  rewrite inject_Z_plus. reflexivity.
Qed.

Lemma Q_of_nat_nonneg (n : nat) : 0 <= Q_of_nat n.
Proof.
  unfold Q_of_nat. change 0 with (inject_Z 0). rewrite <- Zle_Qle. lia.
Qed.

Lemma Q_of_nat_pos (n : nat) : (0 < n)%nat -> 0 < Q_of_nat n.
Proof.
  intros H. unfold Q_of_nat. change 0 with (inject_Z 0). rewrite <- Zlt_Qlt. lia.
Qed.

(** The pass count behind [enough_fuel] brings the clock to [sim_time]. *)
Lemma enough_passes (sim_time dt : Q) :
  0 < dt -> sim_time <= Q_of_nat (Z.to_nat (Qceiling (sim_time / dt))) * dt.
Proof.
  intros Hdt. set (z := Qceiling (sim_time / dt)).
  assert (H1 : sim_time / dt <= inject_Z z) by apply Qle_ceiling.
  assert (H2 : inject_Z z <= Q_of_nat (Z.to_nat z)).
  { unfold Q_of_nat. rewrite <- Zle_Qle. lia. }
  pose proof (Qdiv_mul sim_time dt ltac:(lra)) as E.
  revert H1 E. generalize (sim_time / dt). intros q H1 E.
  revert H2. generalize (Q_of_nat (Z.to_nat z)). intros c H2. nra.
Qed.

Section Passes.

Context {G : Type}.
Variable step : G -> G.
Variable center : G -> Q.
Variable dt : Q.

Lemma record_sample_clock (s : sim_state G) : clock (record_sample center s) = clock s.
Proof. unfold record_sample. now destruct (_ || _). Qed.

Lemma record_sample_fld (s : sim_state G) : fld (record_sample center s) = fld s.
Proof. unfold record_sample. now destruct (_ || _). Qed.

Lemma pass_clock (s : sim_state G) : clock (pass step center dt s) = clock s + dt.
Proof. unfold pass. now rewrite record_sample_clock. Qed.

Lemma pass_fld (s : sim_state G) : fld (pass step center dt s) = step (fld s).
Proof. unfold pass. now rewrite record_sample_fld. Qed.

Lemma iterate_pass_clock (n : nat) (s : sim_state G) :
  clock (iterate (pass step center dt) n s) == clock s + Q_of_nat n * dt.
Proof.
  induction n as [|n IH].
  - simpl. change (Q_of_nat 0) with 0. lra.
  - simpl. rewrite pass_clock, IH, Q_of_nat_S. lra.
Qed.

Lemma iterate_pass_fld (n : nat) (s : sim_state G) :
  fld (iterate (pass step center dt) n s) = iterate step n (fld s).
Proof.
  induction n as [|n IH]; simpl; [reflexivity|]. now rewrite pass_fld, IH.
Qed.

End Passes.

(** ** History sampler *)

Lemma gapped_snoc (g : Q) (l : list Q) (t : Q) :
  gapped g (l ++ [t]) <-> gapped g l /\ (l = [] \/ g <= t - last l 0).
Proof.
  induction l as [|a l IH].
  - simpl. intuition.
  - destruct l as [|b l].
    + simpl. split.
      * intros [H _]. split; [split; trivial|]. now right.
      * intros [_ [H|H]]; [discriminate|]. split; [assumption|]. split; trivial.
    + change ((a :: b :: l) ++ [t]) with (a :: ((b :: l) ++ [t])).
      change (gapped g (a :: (b :: l) ++ [t]))
        with (g <= b - a /\ gapped g ((b :: l) ++ [t])).
      change (gapped g (a :: b :: l)) with (g <= b - a /\ gapped g (b :: l)).
      change (last (a :: b :: l) 0) with (last (b :: l) 0).
      rewrite IH. split.
      * intros (H1 & H2 & [H3|H3]); [discriminate|]. split; [split|]; auto.
      * intros ((H1 & H2) & [H3|H3]); [discriminate|]. split; [|split]; auto.
Qed.

Lemma gapped_increasing (g : Q) (l : list Q) : 0 < g -> gapped g l -> increasing l.
Proof.
  intros Hg. induction l as [|a l IH]; simpl; [trivial|].
  intros [H1 H2]. split; [|now apply IH].
  destruct l as [|b l]; [trivial|]. lra.
Qed.

Section Sampler.

Context {G : Type}.
Variable step : G -> G.
Variable center : G -> Q.
Variable dt : Q.

Local Abbreviation f := (pass step center dt).

Lemma pass_first_sample (s : sim_state G) :
  time_history s = [] ->
  time_history (f s) = [clock (f s)]
  /\ temp_history (f s) = temp_history s ++ [center (fld (f s))].
Proof.
  intros H. rewrite pass_clock, pass_fld. unfold pass, record_sample. simpl.
  rewrite H. simpl. split; reflexivity.
Qed.

Lemma pass_stores (s : sim_state G) :
  0.5 <= clock (f s) - last (time_history s) 0 ->
  time_history (f s) = time_history s ++ [clock (f s)]
  /\ temp_history (f s) = temp_history s ++ [center (fld (f s))].
Proof.
  rewrite pass_clock, pass_fld. intros H. unfold pass, record_sample. simpl.
  apply Qle_bool_iff in H. rewrite H, orb_true_r. simpl. split; reflexivity.
Qed.

Lemma pass_skips (s : sim_state G) :
  time_history s <> [] ->
  clock (f s) - last (time_history s) 0 < 0.5 ->
  time_history (f s) = time_history s /\ temp_history (f s) = temp_history s.
Proof.
  rewrite pass_clock. intros Hne H. unfold pass, record_sample. simpl.
  assert (E : Qle_bool 0.5 (clock s + dt - last (time_history s) 0) = false).
  { apply not_true_iff_false. rewrite Qle_bool_iff. lra. }
  rewrite E. destruct (time_history s); [congruence|]. simpl. split; reflexivity.
Qed.

(** A pass appends at most one pair to the histories and changes no stored
    entry. *)
Lemma pass_appends (s : sim_state G) :
  exists l1 l2,
    time_history (f s) = time_history s ++ l1
    /\ temp_history (f s) = temp_history s ++ l2.
Proof.
  unfold pass, record_sample. simpl. destruct (_ || _); simpl.
  - eauto.
  - exists [], []. now rewrite !app_nil_r.
Qed.

Lemma pass_gapped (s : sim_state G) :
  gapped 0.5 (time_history s) -> gapped 0.5 (time_history (f s)).
Proof.
  intros H. unfold pass, record_sample. simpl.
  destruct (_ || _) eqn:E; simpl; [|assumption].
  apply gapped_snoc. split; [assumption|].
  apply orb_true_iff in E. destruct E as [E|E].
  - left. apply Nat.eqb_eq in E. now apply length_zero_iff_nil.
  - right. now apply Qle_bool_iff.
Qed.

Lemma pass_lengths (s : sim_state G) :
  length (time_history s) = length (temp_history s) ->
  length (time_history (f s)) = length (temp_history (f s)).
Proof.
  intros H. unfold pass, record_sample. simpl.
  destruct (_ || _); simpl; [|assumption]. rewrite !length_app. simpl. lia.
Qed.

Lemma iterate_pass_appends (s0 : sim_state G) (m n : nat) :
  (m <= n)%nat ->
  exists l1 l2,
    time_history (iterate f n s0) = time_history (iterate f m s0) ++ l1
    /\ temp_history (iterate f n s0) = temp_history (iterate f m s0) ++ l2.
Proof.
  induction 1 as [|n Hmn (l1 & l2 & E1 & E2)].
  - exists [], []. now rewrite !app_nil_r.
  - simpl. destruct (pass_appends (iterate f n s0)) as (k1 & k2 & F1 & F2).
    exists (l1 ++ k1), (l2 ++ k2). rewrite F1, F2, E1, E2, !app_assoc. split; reflexivity.
Qed.

Lemma pass_sampler_spec (s0 : sim_state G) :
  time_history s0 = [] -> temp_history s0 = [] ->
  sampler_spec center f s0.
Proof.
  intros H1 H2 n.
  assert (Inv : gapped 0.5 (time_history (iterate f n s0))
                /\ length (time_history (iterate f n s0))
                   = length (temp_history (iterate f n s0))).
  { induction n as [|n [IH1 IH2]]; simpl.
    - rewrite H1, H2. simpl. auto.
    - split; [now apply pass_gapped|now apply pass_lengths]. }
  destruct Inv as [Ig Il]. cbv zeta.
  split; [|split; [|split; [|split; [|split; [|split]]]]].
  - intros E. destruct (pass_first_sample _ E) as [F1 F2]. split; [assumption|].
    rewrite F2. rewrite E in Il. symmetry in Il. apply length_zero_iff_nil in Il.
    now rewrite Il.
  - intros _ H. now apply pass_stores.
  - intros Hne H. now apply pass_skips.
  - assumption.
  - apply (gapped_increasing 0.5); [reflexivity|assumption].
  - assumption.
  - intros m Hm. now apply iterate_pass_appends.
Qed.

End Sampler.

(** ** The three runs *)

Lemma floor_pos (x : Q) : 0 < py_max 0.001 x.
Proof. pose proof (py_max_ge_l 0.001 x). lra. Qed.

(** A loop of passes whose clock starts at [0] returns with [enough_fuel]. *)
Lemma passes_return {G : Type} (step : G -> G) (center : G -> Q) (dt sim_time : Q)
      (body : sim_state G -> outcome (sim_state G)) (s0 : sim_state G) :
  0 < dt -> clock s0 = 0 ->
  (forall s, next body s = pass step center dt s) ->
  exists s,
    while (enough_fuel sim_time dt) (fun s => Qltb (clock s) sim_time) body s0 = Some s.
Proof.
  intros Hdt H0 Hnext. apply while_total.
  exists (Z.to_nat (Qceiling (sim_time / dt))). split; [unfold enough_fuel; lia|].
  rewrite (iterate_ext _ _ _ _ Hnext). apply Qltb_false.
  rewrite iterate_pass_clock, H0. pose proof (enough_passes sim_time dt Hdt). lra.
Qed.

Section SquareRun.

Variable res : resolution.
Variables k rho cp h_waterjet h_natural T_coolant T_init sim_time width height : Q.

Local Abbreviation body :=
  (Square.body res k rho cp h_waterjet h_natural T_coolant width height).
Local Abbreviation init := (Square.init res T_init).
Local Abbreviation run :=
  (Square.run res k rho cp h_waterjet h_natural T_coolant T_init sim_time width height).

Lemma square_run_returns : exists s, run = Some s.
Proof.
  unfold Square.run.
  apply (passes_return
           (Square.step res k rho cp h_waterjet h_natural T_coolant width height)
           (Square.center res) (Square.dt res k rho cp width height)).
  - apply floor_pos.
  - reflexivity.
  - reflexivity.
Qed.

Lemma square_run_trace (s : sim_state grid) :
  run = Some s ->
  exists n, s = iterate body n init
            /\ (forall m, (m < n)%nat -> clock (iterate body m init) < sim_time)
            /\ sim_time <= clock s.
Proof.
  intros H. apply while_trace in H.
  destruct H as (n & Hs & Hc & _ & [[Hend _]|(m & _ & Hb)]).
  - exists n. split; [exact Hs|]. split.
    + intros m Hm. apply Qltb_true. exact (Hc m Hm).
    + now apply Qltb_false.
  - discriminate Hb.
Qed.

End SquareRun.

Section CylRun.

Variable res : resolution.
Variables k rho cp h_waterjet h_natural T_coolant T_init sim_time diameter height : Q.

Local Abbreviation body :=
  (Cyl.body res k rho cp h_waterjet h_natural T_coolant diameter height).
Local Abbreviation advance :=
  (Cyl.advance res k rho cp h_waterjet h_natural T_coolant diameter height).
Local Abbreviation init := (Cyl.init res T_init).
Local Abbreviation run :=
  (Cyl.run res k rho cp h_waterjet h_natural T_coolant T_init sim_time diameter height).

Lemma cyl_next (s : sim_state grid) : next body s = advance s.
Proof. unfold next, Cyl.body. now destruct (Cyl.converged _ _). Qed.

Lemma cyl_breaks (s : sim_state grid) :
  breaks body s = Cyl.converged T_coolant (advance s).
Proof. unfold breaks, Cyl.body. now destruct (Cyl.converged _ _). Qed.

Lemma cyl_run_returns : exists s, run = Some s.
Proof.
  unfold Cyl.run.
  apply (passes_return
           (Cyl.step res k rho cp h_waterjet h_natural T_coolant diameter height)
           (Cyl.center res) (Cyl.dt res k rho cp diameter height)).
  - apply floor_pos.
  - reflexivity.
  - apply cyl_next.
Qed.

(** The run of the cylindrical solver ends after [n] passes, the loop test
    having held before each; either the test of the early termination
    succeeded on the state the last pass produced, or it never did and the
    clock has reached [sim_time]. *)
Lemma cyl_run_trace (s : sim_state grid) :
  run = Some s ->
  exists n, s = iterate advance n init
            /\ (forall m, (m < n)%nat -> clock (iterate advance m init) < sim_time)
            /\ ((sim_time <= clock s
                 /\ forall m, (0 < m <= n)%nat ->
                              Cyl.converged T_coolant (iterate advance m init) = false)
                \/ ((0 < n)%nat /\ Cyl.converged T_coolant s = true)).
Proof.
  intros H. apply while_trace in H.
  destruct H as (n & Hs & Hc & _ & Hend).
  rewrite (iterate_ext _ _ _ _ cyl_next) in Hs.
  exists n. split; [exact Hs|]. split.
  - intros m Hm. apply Qltb_true. rewrite <- (iterate_ext _ _ _ _ cyl_next).
    exact (Hc m Hm).
  - destruct Hend as [[Hend Hb]|(m & -> & Hb)].
    + left. split; [now apply Qltb_false|].
      intros [|m] Hm; [lia|]. simpl. rewrite <- cyl_breaks.
      rewrite <- (iterate_ext _ _ _ _ cyl_next). apply Hb. lia.
    + right. split; [lia|]. rewrite Hs. simpl. rewrite <- cyl_breaks.
      rewrite <- (iterate_ext _ _ _ _ cyl_next). exact Hb.
Qed.

End CylRun.

Section ConeRun.

Variable exp : Q -> Q.
Variable res : resolution.
Variables k rho cp h_waterjet h_natural T_coolant T_init sim_time : Q.
Variables cyl_height cone_height : Q.

Local Abbreviation body :=
  (Cone.body exp res k rho cp h_waterjet h_natural T_coolant cyl_height cone_height).
Local Abbreviation init := (Cone.init res T_init).
Local Abbreviation run :=
  (Cone.run exp res k rho cp h_waterjet h_natural T_coolant T_init sim_time
            cyl_height cone_height).

Lemma cone_run_returns : exists s, run = Some s.
Proof.
  unfold Cone.run.
  apply (passes_return
           (Cone.step exp res k rho cp h_waterjet h_natural T_coolant cyl_height cone_height)
           (Cone.center res) (Cone.dt res k rho cp cyl_height cone_height)).
  - apply floor_pos.
  - reflexivity.
  - reflexivity.
Qed.

Lemma cone_run_trace (s : sim_state vec) :
  run = Some s ->
  exists n, s = iterate body n init
            /\ (forall m, (m < n)%nat -> clock (iterate body m init) < sim_time)
            /\ sim_time <= clock s.
Proof.
  intros H. apply while_trace in H.
  destruct H as (n & Hs & Hc & _ & [[Hend _]|(m & _ & Hb)]).
  - exists n. split; [exact Hs|]. split.
    + intros m Hm. apply Qltb_true. exact (Hc m Hm).
    + now apply Qltb_false.
  - discriminate Hb.
Qed.

End ConeRun.

(** C9.  In every run of each solver the history sampler stores the sample
    of the first pass unconditionally and afterwards stores a new
    [(time, temperature)] pair exactly when the clock has advanced by at
    least 0.5 s since the last stored time; the stored times are therefore
    strictly increasing with consecutive gaps of at least 0.5 s, the two
    histories have the same length, they only grow by appending, no stored
    entry ever changes, and the lists a solver returns are the histories
    after the last pass. *)
Theorem history_sampler_guarantees
        (exp : Q -> Q) (res : resolution)
        (k rho cp h_waterjet h_natural T_coolant T_init sim_time : Q)
        (width height diameter cyl_height : Q)
        (cone_diameter cone_cyl_height cone_height cone_angle : Q) :
  (sampler_spec (Square.center res)
     (Square.body res k rho cp h_waterjet h_natural T_coolant width height)
     (Square.init res T_init)
   /\ forall times temps,
       Square.simulate_square_bar_fast res k rho cp h_waterjet h_natural T_coolant
                                       T_init sim_time width height
       = Ok (times, temps) ->
       exists n,
         let s := iterate (Square.body res k rho cp h_waterjet h_natural T_coolant
                                       width height) n (Square.init res T_init) in
         times = time_history s /\ temps = temp_history s)
  /\
  (sampler_spec (Cyl.center res)
     (Cyl.advance res k rho cp h_waterjet h_natural T_coolant diameter cyl_height)
     (Cyl.init res T_init)
   /\ forall times temps,
       Cyl.simulate_cylindrical_bar_fast res k rho cp h_waterjet h_natural T_coolant
                                         T_init sim_time diameter cyl_height
       = Ok (times, temps) ->
       exists n,
         let s := iterate (Cyl.advance res k rho cp h_waterjet h_natural T_coolant
                                       diameter cyl_height) n (Cyl.init res T_init) in
         times = time_history s /\ temps = temp_history s)
  /\
  (sampler_spec (Cone.center res)
     (Cone.body exp res k rho cp h_waterjet h_natural T_coolant cone_cyl_height cone_height)
     (Cone.init res T_init)
   /\ forall times temps,
       Cone.simulate_conical_tip_bar_fast exp res k rho cp h_waterjet h_natural T_coolant
                                          T_init sim_time cone_diameter cone_cyl_height
                                          cone_height cone_angle
       = Ok (times, temps) ->
       exists n,
         let s := iterate (Cone.body exp res k rho cp h_waterjet h_natural T_coolant
                                     cone_cyl_height cone_height) n (Cone.init res T_init) in
         times = time_history s /\ temps = temp_history s).
Proof.
  split; [|split]; split.
  - apply (pass_sampler_spec
             (Square.step res k rho cp h_waterjet h_natural T_coolant width height)
             (Square.center res) (Square.dt res k rho cp width height)); reflexivity.
  - intros times temps. unfold Square.simulate_square_bar_fast.
    destruct (Square.zero_divisor _ _ _ _ _ _); [discriminate|].
    destruct (Square.run _ _ _ _ _ _ _ _ _ _ _) as [s|] eqn:R; [|discriminate].
    intros [= <- <-]. apply square_run_trace in R. destruct R as (n & -> & _).
    exists n. split; reflexivity.
  - apply (pass_sampler_spec
             (Cyl.step res k rho cp h_waterjet h_natural T_coolant diameter cyl_height)
             (Cyl.center res) (Cyl.dt res k rho cp diameter cyl_height)); reflexivity.
  - intros times temps. unfold Cyl.simulate_cylindrical_bar_fast.
    destruct (Cyl.zero_divisor _ _ _ _ _); [discriminate|].
    destruct (Cyl.run _ _ _ _ _ _ _ _ _ _ _) as [s|] eqn:R; [|discriminate].
    intros [= <- <-]. apply cyl_run_trace in R. destruct R as (n & -> & _).
    exists n. split; reflexivity.
  - apply (pass_sampler_spec
             (Cone.step exp res k rho cp h_waterjet h_natural T_coolant
                        cone_cyl_height cone_height)
             (Cone.center res) (Cone.dt res k rho cp cone_cyl_height cone_height));
      reflexivity.
  - intros times temps. unfold Cone.simulate_conical_tip_bar_fast.
    destruct (Cone.zero_divisor _ _ _ _ _ _ _); [discriminate|].
    destruct (Cone.run _ _ _ _ _ _ _ _ _ _ _ _) as [s|] eqn:R; [|discriminate].
    intros [= <- <-]. apply cone_run_trace in R. destruct R as (n & -> & _).
    exists n. split; reflexivity.
Qed.

(** ** Geometry of the conical tip *)

(** C10.  Two runs of the conical-tip solver that agree on the material, the
    cooling conditions, the duration, the resolution tier and the sum
    [cyl_height + cone_height] return the same time and temperature
    histories, whatever their cone angles and cylinder diameters. *)
Theorem cone_history_ignores_angle_and_diameter
        (exp : Q -> Q) (res : resolution)
        (k rho cp h_waterjet h_natural T_coolant T_init sim_time : Q)
        (cyl_diameter1 cyl_height1 cone_height1 cone_angle1 : Q)
        (cyl_diameter2 cyl_height2 cone_height2 cone_angle2 : Q) :
  cyl_height1 + cone_height1 = cyl_height2 + cone_height2 ->
  Cone.simulate_conical_tip_bar_fast exp res k rho cp h_waterjet h_natural T_coolant
    T_init sim_time cyl_diameter1 cyl_height1 cone_height1 cone_angle1
  = Cone.simulate_conical_tip_bar_fast exp res k rho cp h_waterjet h_natural T_coolant
      T_init sim_time cyl_diameter2 cyl_height2 cone_height2 cone_angle2.
Proof.
  intros H.
  unfold Cone.simulate_conical_tip_bar_fast, Cone.zero_divisor, Cone.run, Cone.body,
    Cone.step, Cone.writes, Cone.diffusion, Cone.free_end, Cone.tip, Cone.side_loss,
    Cone.dt, Cone.dx, Cone.total_length.
  rewrite H. reflexivity.
Qed.

Lemma cone_history_ignores_angle_and_diameter_witness :
  Cone.simulate_conical_tip_bar_fast (fun _ => 1) Low 50 7800 500 0 10 20 900 1
    0.01905 0.065 0.010 30
  = Cone.simulate_conical_tip_bar_fast (fun _ => 1) Low 50 7800 500 0 10 20 900 1
      0.025 0.060 0.015 45.
Proof.
  apply (cone_history_ignores_angle_and_diameter
           (fun _ => 1) Low 50 7800 500 0 10 20 900 1
           0.01905 0.065 0.010 30 0.025 0.060 0.015 45).
  reflexivity.
Defined.

(** ** Conical tip: the pass node by node *)

Lemma assign1_length (w : write1) (A : vec) : length (assign1 w A) = length A.
Proof. apply mapi_length. Qed.

Lemma get1_assign1 (w : write1) (A : vec) (i : nat) :
  (i < length A)%nat ->
  get1 (assign1 w A) i = if region1 w i then value1 w i (get1 A i) else get1 A i.
Proof. intros Hi. unfold get1, assign1. now rewrite (mapi_nth _ A i 0 0). Qed.

Lemma np_ones1_length (n : nat) (v : Q) : length (np_ones1 n v) = n.
Proof. apply repeat_length. Qed.

Lemma get1_np_ones1 (n : nat) (v : Q) (i : nat) :
  (i < n)%nat -> get1 (np_ones1 n v) i = 1 * v.
Proof. intros Hi. unfold get1, np_ones1. now apply nth_repeat_lt. Qed.

Section ConeSweep.

Variable exp : Q -> Q.
Variable res : resolution.
Variables k rho cp h_waterjet h_natural T_coolant T_init : Q.
Variables cyl_height cone_height : Q.

Local Abbreviation n_points := (Cone.n_points res).
Local Abbreviation writes :=
  (Cone.writes exp res k rho cp h_waterjet h_natural T_coolant cyl_height cone_height).
Local Abbreviation step :=
  (Cone.step exp res k rho cp h_waterjet h_natural T_coolant cyl_height cone_height).
Local Abbreviation node :=
  (Cone.node exp res k rho cp h_waterjet h_natural T_coolant cyl_height cone_height).
Local Abbreviation body :=
  (Cone.body exp res k rho cp h_waterjet h_natural T_coolant cyl_height cone_height).
Local Abbreviation init := (Cone.init res T_init).

Lemma cone_n_points_ge : (3 <= n_points)%nat.
Proof. unfold Cone.n_points. lia. Qed.

Lemma cone_writes_all (T : vec) :
  writes T = [Cone.diffusion res k rho cp cyl_height cone_height T;
              Cone.free_end res k rho cp h_natural T_coolant cyl_height cone_height T;
              Cone.tip exp res k h_waterjet T_coolant cyl_height cone_height T;
              Cone.side_loss res k rho cp h_natural T_coolant cyl_height cone_height T].
Proof.
  pose proof cone_n_points_ge. unfold Cone.writes.
  replace (2 <? n_points)%nat with true by (symmetry; apply Nat.ltb_lt; lia).
  reflexivity.
Qed.

Lemma cone_step_length (T : vec) : length (step T) = length T.
Proof.
  unfold Cone.step. rewrite cone_writes_all. simpl. now rewrite !assign1_length.
Qed.

Lemma cone_step_node (T : vec) (i : nat) :
  length T = n_points -> (i < n_points)%nat -> get1 (step T) i = node T i.
Proof.
  intros HL Hi. pose proof cone_n_points_ge.
  unfold Cone.step. rewrite cone_writes_all. simpl.
  rewrite !get1_assign1 by (rewrite ?assign1_length; lia).
  unfold Cone.node. simpl. unfold in_slice.
  case_nat; simpl; try reflexivity; lia.
Qed.

Lemma cone_fld_length (m : nat) : length (fld (iterate body m init)) = n_points.
Proof.
  induction m as [|m IH]; simpl.
  - apply np_ones1_length.
  - unfold Cone.body. rewrite record_sample_fld. simpl. now rewrite cone_step_length.
Qed.

Lemma cone_body_fld (s : sim_state vec) : fld (body s) = step (fld s).
Proof. unfold Cone.body. now rewrite record_sample_fld. Qed.

(** Only the assignment [T_new[-1] = ...] covers the tip node. *)
Lemma cone_tip_only (T : vec) (w : write1) :
  In w (writes T) -> region1 w (n_points - 1) = true ->
  w = Cone.tip exp res k h_waterjet T_coolant cyl_height cone_height T.
Proof.
  pose proof cone_n_points_ge. rewrite cone_writes_all. simpl.
  intros [<-|[<-|[<-|[<-|[]]]]]; simpl; unfold in_slice; case_nat; simpl;
    intros; try discriminate; try reflexivity; lia.
Qed.

End ConeSweep.

Lemma relax_closed_form (T_coolant E T0 : Q) (m : nat) :
  relax T_coolant E T0 m == T_coolant + (T0 - T_coolant) * E ^ Z.of_nat m.
Proof.
  induction m as [|m IH].
  - simpl. lra.
  - cbn [relax]. rewrite IH. rewrite Nat2Z.inj_succ. unfold Z.succ.
    rewrite Qpower_plus' by lia. change (E ^ 1) with E. lra.
Qed.

(** C8.  In the conical-tip solver, at every pass of a run the tip node (the
    last axial node) becomes exactly
    [T_coolant + (T_old - T_coolant) * exp(-h_jet * dx / k)], with [T_old]
    its value before the pass; the assignment that does so is the only one
    of the pass that covers the node; hence after [m] passes the tip holds
    the [m]-fold exponential relaxation of the initial temperature,
    [T_coolant + (T_init - T_coolant) * exp(-h_jet * dx / k)^m]. *)
Theorem cone_tip_relaxation
        (exp : Q -> Q) (res : resolution)
        (k rho cp h_waterjet h_natural T_coolant T_init : Q)
        (cyl_height cone_height : Q) (m : nat) :
  let tip := (Cone.n_points res - 1)%nat in
  let E := exp (- h_waterjet * Cone.dx res cyl_height cone_height / k) in
  let T := fun n =>
    fld (iterate (Cone.body exp res k rho cp h_waterjet h_natural T_coolant
                            cyl_height cone_height) n (Cone.init res T_init)) in
  get1 (T (S m)) tip = T_coolant + (get1 (T m) tip - T_coolant) * E
  /\ (forall w,
       In w (Cone.writes exp res k rho cp h_waterjet h_natural T_coolant
                         cyl_height cone_height (T m)) ->
       region1 w tip = true ->
       w = Cone.tip exp res k h_waterjet T_coolant cyl_height cone_height (T m))
  /\ get1 (T m) tip = relax T_coolant E (1 * T_init) m
  /\ get1 (T m) tip == T_coolant + (T_init - T_coolant) * E ^ Z.of_nat m.
Proof.
  intros tip E T. pose proof (cone_n_points_ge res) as Hn.
  assert (Hstep : forall n,
             get1 (T (S n)) tip = T_coolant + (get1 (T n) tip - T_coolant) * E).
  { intros n. unfold T. simpl. rewrite cone_body_fld.
    rewrite cone_step_node by (try apply cone_fld_length; unfold tip; lia).
    unfold Cone.node, tip. case_nat; try lia. reflexivity. }
  assert (Hrel : forall n, get1 (T n) tip = relax T_coolant E (1 * T_init) n).
  { induction n as [|n IH].
    - unfold T. simpl. apply get1_np_ones1. unfold tip. lia.
    - rewrite Hstep, IH. reflexivity. }
  split; [apply Hstep|]. split; [apply cone_tip_only|]. split; [apply Hrel|].
  rewrite Hrel, relax_closed_form. lra.
Qed.

(** ** Early termination of the cylindrical solver *)

Lemma cyl_advance_clock
      (res : resolution) (k rho cp h_waterjet h_natural T_coolant diameter height : Q)
      (s : sim_state grid) :
  clock (Cyl.advance res k rho cp h_waterjet h_natural T_coolant diameter height s)
  = clock s + Cyl.dt res k rho cp diameter height.
Proof. unfold Cyl.advance. now rewrite record_sample_clock. Qed.

Lemma cyl_converged_inv (T_coolant : Q) (s : sim_state grid) :
  Cyl.converged T_coolant s = true ->
  10 < clock s
  /\ (1 < length (temp_history s))%nat
  /\ Qabs (Cyl.last1 (temp_history s) - Cyl.last2 (temp_history s)) < 0.1
  /\ Cyl.last1 (temp_history s) < T_coolant + 50.
Proof.
  unfold Cyl.converged. rewrite !andb_true_iff, !Qltb_true, Nat.ltb_lt. tauto.
Qed.

(** The claim as the specification words it fails on the scenario of the
    cylindrical bar run for one second: the solver does not stop early, and
    the elapsed time it stops at is not [t_end] but beyond it. *)
Lemma cyl_run_overshoots :
  exists s,
    Cyl.run Low 50 7800 500 5000 10 20 900 1 0.01905 0.075 = Some s
    /\ Cyl.converged 20 s = false
    /\ 1 < clock s.
Proof.
  destruct (cyl_run_returns Low 50 7800 500 5000 10 20 900 1 0.01905 0.075) as [s R].
  exists s. split; [exact R|].
  apply cyl_run_trace in R. destruct R as (n & Hs & Hlt & Hend).
  assert (Hc : clock s == Q_of_nat n * Cyl.dt Low 50 7800 500 0.01905 0.075).
  { rewrite Hs.
    rewrite (iterate_pass_clock
               (Cyl.step Low 50 7800 500 5000 10 20 0.01905 0.075) (Cyl.center Low)
               (Cyl.dt Low 50 7800 500 0.01905 0.075) n (Cyl.init Low 900)).
    simpl clock. lra. }
  assert (Hdt : Cyl.dt Low 50 7800 500 0.01905 0.075 <= 1).
  { vm_compute. discriminate. }
  assert (Hup : clock s < 10).
  { destruct n as [|n].
    - rewrite Hc. change (Q_of_nat 0) with 0. lra.
    - pose proof (Hlt n (Nat.lt_succ_diag_r n)) as Hn.
      rewrite Hs. simpl iterate. rewrite cyl_advance_clock. lra. }
  assert (Hnc : Cyl.converged 20 s = false).
  { destruct (Cyl.converged 20 s) eqn:E; [|reflexivity].
    apply cyl_converged_inv in E. lra. }
  split; [exact Hnc|].
  destruct Hend as [[Hge _]|[_ Hconv]]; [|congruence].
  destruct (Qlt_le_dec 1 (clock s)) as [|Hle]; [assumption|exfalso].
  assert (E : Q_of_nat n * Cyl.dt Low 50 7800 500 0.01905 0.075 == 1) by lra.
  revert E. unfold Q_of_nat. vm_compute Cyl.dt. unfold Qeq. simpl.
  intros E. lia.
Qed.

(** C5 (amended).  The cylindrical solver always returns.  It stops with the
    elapsed time still below [t_end] only if, on the state of its last pass,
    the elapsed time exceeds 10 s, at least two samples are stored, the two
    most recent stored samples differ by less than 0.1 and the most recent
    stored sample is below [T_coolant + 50].  In every other case it runs
    until the first pass that brings the elapsed time to [t_end] or beyond:
    the elapsed time it stops at is at least [t_end] and less than one time
    step past it (or the loop made no pass at all). *)
Theorem cyl_stops_early_or_passes_t_end
        (res : resolution)
        (k rho cp h_waterjet h_natural T_coolant T_init sim_time diameter height : Q) :
  (exists s,
      Cyl.run res k rho cp h_waterjet h_natural T_coolant T_init sim_time diameter height
      = Some s)
  /\ forall s,
      Cyl.run res k rho cp h_waterjet h_natural T_coolant T_init sim_time diameter height
      = Some s ->
      (clock s < sim_time ->
       10 < clock s
       /\ (1 < length (temp_history s))%nat
       /\ Qabs (Cyl.last1 (temp_history s) - Cyl.last2 (temp_history s)) < 0.1
       /\ Cyl.last1 (temp_history s) < T_coolant + 50)
      /\ (sim_time <= clock s ->
          s = Cyl.init res T_init
          \/ clock s - Cyl.dt res k rho cp diameter height < sim_time).
Proof.
  split; [apply cyl_run_returns|].
  intros s R. apply cyl_run_trace in R. destruct R as (n & Hs & Hlt & Hend). split.
  - intros Hearly. destruct Hend as [[Hge _]|[_ Hconv]]; [lra|].
    now apply cyl_converged_inv.
  - intros _. destruct n as [|n]; [now left|right].
    pose proof (Hlt n (Nat.lt_succ_diag_r n)) as Hn.
    rewrite Hs. simpl iterate. rewrite cyl_advance_clock. lra.
Qed.

(** ** Discrete maximum principle *)

Lemma relaxation_bounds (T X1 X2 X3 X4 Tc c1 c2 c3 c4 c0 lo hi : Q) :
  0 <= c1 -> 0 <= c2 -> 0 <= c3 -> 0 <= c4 -> 0 <= c0 ->
  c1 + c2 + c3 + c4 + c0 <= 1 ->
  lo <= T <= hi -> lo <= X1 <= hi -> lo <= X2 <= hi -> lo <= X3 <= hi ->
  lo <= X4 <= hi -> lo <= Tc <= hi ->
  lo <= relaxation T X1 X2 X3 X4 Tc c1 c2 c3 c4 c0 <= hi.
Proof. unfold relaxation. intros. nra. Qed.

Lemma relaxation_mono (T X1 X2 X3 X4 T' X1' X2' X3' X4' Tc c1 c2 c3 c4 c0 : Q) :
  0 <= c1 -> 0 <= c2 -> 0 <= c3 -> 0 <= c4 -> 0 <= c0 ->
  c1 + c2 + c3 + c4 + c0 <= 1 ->
  T <= T' -> X1 <= X1' -> X2 <= X2' -> X3 <= X3' -> X4 <= X4' ->
  relaxation T X1 X2 X3 X4 Tc c1 c2 c3 c4 c0
  <= relaxation T' X1' X2' X3' X4' Tc c1 c2 c3 c4 c0.
Proof. unfold relaxation. intros. nra. Qed.

Lemma non_increasing_snoc (l : list Q) (x : Q) :
  non_increasing l -> Forall (fun y => x <= y) l -> non_increasing (l ++ [x]).
Proof.
  induction l as [|a l IH]; simpl; [auto|].
  intros [H1 H2] HF. inversion HF as [|? ? Ha HF']; subst.
  split; [|now apply IH].
  destruct l as [|b l]; simpl; assumption.
Qed.

Section MaximumPrinciple.

Context {G I : Type}.
Variable val : G -> I -> Q.
Variable dom : I -> Prop.
Variable wf : G -> Prop.
Variable T_coolant : Q.
Variable step : G -> G.

Hypothesis step_wf : forall T, wf T -> wf (step T).
Hypothesis step_relaxes : forall i, dom i -> relaxes val dom wf T_coolant step i.

(** A pass keeps the field between two bounds that enclose the coolant
    temperature. *)
Lemma step_within (lo hi : Q) (T : G) :
  lo <= T_coolant <= hi -> wf T ->
  within val dom lo hi T -> within val dom lo hi (step T).
Proof.
  intros Hc Hwf HT i Hi.
  destruct (step_relaxes i Hi)
    as (p1 & p2 & p3 & p4 & c1 & c2 & c3 & c4 & c0 & (D1 & D2 & D3 & D4)
        & (C1 & C2 & C3 & C4 & C0) & Hsum & E).
  rewrite (E T Hwf). apply relaxation_bounds; auto.
Qed.

(** A pass preserves the order of two fields. *)
Lemma step_below (T T' : G) :
  wf T -> wf T' -> below val dom T T' -> below val dom (step T) (step T').
Proof.
  intros Hwf Hwf' HT i Hi.
  destruct (step_relaxes i Hi)
    as (p1 & p2 & p3 & p4 & c1 & c2 & c3 & c4 & c0 & (D1 & D2 & D3 & D4)
        & (C1 & C2 & C3 & C4 & C0) & Hsum & E).
  rewrite (E T Hwf), (E T' Hwf'). apply relaxation_mono; auto.
Qed.

Variable T0 : G.
Variable T_init : Q.

Hypothesis T0_wf : wf T0.
Hypothesis T0_uniform : forall i, dom i -> val T0 i == T_init.
Hypothesis cooling : T_coolant <= T_init.

Lemma iterate_wf (n : nat) : wf (iterate step n T0).
Proof. induction n as [|n IH]; simpl; auto. Qed.

(** No node ever leaves the range from the coolant temperature to the
    initial temperature. *)
Lemma iterate_within (n : nat) :
  within val dom T_coolant T_init (iterate step n T0).
Proof.
  induction n as [|n IH]; simpl.
  - intros i Hi. rewrite (T0_uniform i Hi). lra.
  - apply step_within; [lra|apply iterate_wf|assumption].
Qed.

(** Every node cools from one pass to the next. *)
Lemma iterate_below (n : nat) :
  below val dom (iterate step (Datatypes.S n) T0) (iterate step n T0).
Proof.
  induction n as [|n IH].
  - intros i Hi. rewrite (T0_uniform i Hi).
    apply (iterate_within 1 i Hi).
  - simpl. apply step_below; [apply (iterate_wf (Datatypes.S n))|apply iterate_wf|].
    exact IH.
Qed.

Lemma iterate_below_le (m n : nat) :
  (m <= n)%nat -> below val dom (iterate step n T0) (iterate step m T0).
Proof.
  induction 1 as [|n Hmn IH].
  - intros i Hi. lra.
  - intros i Hi. pose proof (iterate_below n i Hi). pose proof (IH i Hi). lra.
Qed.

(** The samples of a node recorded along the passes never increase. *)
Variable ic : I.
Variable center : G -> Q.
Variable dt : Q.
Variable s0 : sim_state G.

Hypothesis ic_dom : dom ic.
Hypothesis center_val : forall T, center T = val T ic.
Hypothesis s0_fld : fld s0 = T0.
Hypothesis s0_temps : temp_history s0 = [].

Lemma iterate_temps_non_increasing (n : nat) :
  non_increasing (temp_history (iterate (pass step center dt) n s0))
  /\ Forall (fun y => center (fld (iterate (pass step center dt) n s0)) <= y)
            (temp_history (iterate (pass step center dt) n s0)).
Proof.
  induction n as [|n [IH1 IH2]].
  - simpl. rewrite s0_temps. simpl. auto.
  - assert (Hc : center (fld (iterate (pass step center dt) (Datatypes.S n) s0))
                 <= center (fld (iterate (pass step center dt) n s0))).
    { rewrite !iterate_pass_fld, s0_fld, !center_val. apply iterate_below, ic_dom. }
    assert (HF : Forall (fun y => center (fld (iterate (pass step center dt)
                                                       (Datatypes.S n) s0)) <= y)
                        (temp_history (iterate (pass step center dt) n s0))).
    { revert IH2. apply Forall_impl. intros y Hy. lra. }
    revert Hc HF. simpl iterate.
    set (s := iterate (pass step center dt) n s0) in *.
    intros Hc HF. rewrite pass_fld in *.
    unfold pass, record_sample. simpl.
    destruct (_ || _); simpl.
    + split.
      * apply non_increasing_snoc; assumption.
      * apply Forall_app. split; [assumption|]. constructor; [lra|constructor].
    + split; assumption.
Qed.

End MaximumPrinciple.

Lemma Qdiv_nonneg0 (a b : Q) : 0 <= a -> 0 <= b -> 0 <= a / b.
Proof.
  intros Ha Hb. unfold Qdiv. apply Qmult_le_0_compat; [assumption|].
  now apply Qinv_le_0_compat.
Qed.

Tactic Notation "relax_with" constr(p1) constr(p2) constr(p3) constr(p4)
       constr(c1) constr(c2) constr(c3) constr(c4) constr(c0) :=
  exists p1, p2, p3, p4, c1, c2, c3, c4, c0.

(** ** Square bar: every update is a relaxation *)

Section SquareRelaxation.

Variable res : resolution.
Variables k rho cp h_waterjet h_natural T_coolant width height : Q.

Hypothesis k_pos : 0 < k.
Hypothesis rho_pos : 0 < rho.
Hypothesis cp_pos : 0 < cp.
Hypothesis h_waterjet_nonneg : 0 <= h_waterjet.
Hypothesis h_natural_nonneg : 0 <= h_natural.
Hypothesis width_pos : 0 < width.
Hypothesis height_pos : 0 < height.
Hypothesis stability : Square.stable res k rho cp h_waterjet h_natural width height.

Local Abbreviation nz := (Square.nz res).
Local Abbreviation nx := (Square.nx res).
Local Abbreviation rx := (Square.rx res k rho cp width height).
Local Abbreviation rz := (Square.rz res k rho cp width height).
Local Abbreviation dx := (Square.dx res width).
Local Abbreviation dz := (Square.dz res height).
Local Abbreviation step :=
  (Square.step res k rho cp h_waterjet h_natural T_coolant width height).

Lemma square_dx_pos : 0 < dx.
Proof.
  unfold Square.dx. apply Qdiv_pos; [assumption|].
  apply Q_of_nat_pos. pose proof (square_nx_ge res). lia.
Qed.

Lemma square_dz_pos : 0 < dz.
Proof.
  unfold Square.dz. apply Qdiv_pos; [assumption|].
  apply Q_of_nat_pos. pose proof (square_nz_ge res). lia.
Qed.

Lemma square_alpha_dt_pos : 0 < Square.alpha k rho cp * Square.dt res k rho cp width height.
Proof.
  apply Qmult_lt_0_compat; [now apply alpha_pos|apply floor_pos].
Qed.

Lemma square_rx_nonneg : 0 <= rx.
Proof.
  unfold Square.rx. pose proof square_alpha_dt_pos.
  apply Qdiv_nonneg0; [lra|apply Qsq_nonneg].
Qed.

Lemma square_rz_nonneg : 0 <= rz.
Proof.
  unfold Square.rz. pose proof square_alpha_dt_pos.
  apply Qdiv_nonneg0; [lra|apply Qsq_nonneg].
Qed.

Lemma square_biot_nonneg (h d : Q) : 0 <= h -> 0 < d -> 0 <= h * d / k.
Proof. intros Hh Hd. apply Qdiv_nonneg; [nra|assumption]. Qed.

Lemma square_relaxes (p : nat * nat) :
  dom2 nz nx p -> relaxes val2 (dom2 nz nx) (shape nz nx) T_coolant step p.
Proof.
  destruct p as [i j]. intros [Hi Hj]. simpl in Hi, Hj.
  pose proof (square_nz_ge res) as Hnz. pose proof (square_nx_ge res) as Hnx.
  pose proof square_rx_nonneg as Hrx. pose proof square_rz_nonneg as Hrz.
  pose proof (square_biot_nonneg h_waterjet dz h_waterjet_nonneg square_dz_pos) as Bj.
  pose proof (square_biot_nonneg h_natural dx h_natural_nonneg square_dx_pos) as Bx.
  pose proof (square_biot_nonneg h_natural dz h_natural_nonneg square_dz_pos) as Bz.
  destruct stability as (S1 & S2 & S3 & S4).
  assert (Hnode : forall T, shape nz nx T ->
            val2 (step T) (i, j)
            = Square.node res k rho cp h_waterjet h_natural T_coolant width height T i j).
  { intros T HS. unfold val2. simpl. now apply square_step_node. }
  unfold Square.node in Hnode. unfold in_slice in Hnode.
  destruct (i =? 0)%nat eqn:Ei0; [|destruct (i =? nz - 1)%nat eqn:Eit;
    [destruct ((1 <=? j)%nat && (j <? nx - 1)%nat) eqn:Ejm
    |destruct (j =? 0)%nat eqn:Ej0; [|destruct (j =? nx - 1)%nat eqn:Ejl]]];
    rewrite ?andb_true_iff, ?andb_false_iff in *; reflect_nat.
  - (* the face on the jet *)
    relax_with (1%nat, j) (i, j) (i, j) (i, j)
               (2 * rz) 0 0 0 (2 * rz * (h_waterjet * dz / k)).
    split; [unfold dom2; simpl; repeat split; lia|].
    split; [repeat split; try lra; nra|]. split; [nra|].
    intros T HS. rewrite (Hnode T HS). subst i. unfold relaxation, val2. simpl. ring.
  - (* the opposite face, between its corners *)
    destruct Ejm as [Ej1 Ej2]; reflect_nat.
    relax_with ((nz - 2)%nat, j) (i, j) (i, j) (i, j)
               (2 * rz) 0 0 0 (2 * rz * (h_natural * dz / k)).
    split; [unfold dom2; simpl; repeat split; lia|].
    split; [repeat split; try lra; nra|]. split; [nra|].
    intros T HS. rewrite (Hnode T HS). subst i. unfold relaxation, val2. simpl. ring.
  - (* its two corners keep their value *)
    relax_with (i, j) (i, j) (i, j) (i, j) 0 0 0 0 0.
    split; [unfold dom2; simpl; repeat split; lia|].
    split; [repeat split; lra|]. split; [lra|].
    intros T HS. rewrite (Hnode T HS). unfold relaxation, val2. simpl. ring.
  - (* first column *)
    relax_with (i, 1%nat) (i, j) (i, j) (i, j)
               (2 * rx) 0 0 0 (2 * rx * (h_natural * dx / k)).
    split; [unfold dom2; simpl; repeat split; lia|].
    split; [repeat split; try lra; nra|]. split; [nra|].
    intros T HS. rewrite (Hnode T HS). subst j. unfold relaxation, val2. simpl. ring.
  - (* last column *)
    relax_with (i, (nx - 2)%nat) (i, j) (i, j) (i, j)
               (2 * rx) 0 0 0 (2 * rx * (h_natural * dx / k)).
    split; [unfold dom2; simpl; repeat split; lia|].
    split; [repeat split; try lra; nra|]. split; [nra|].
    intros T HS. rewrite (Hnode T HS). subst j. unfold relaxation, val2. simpl. ring.
  - (* interior *)
    relax_with (i, (j + 1)%nat) (i, (j - 1)%nat) ((i + 1)%nat, j) ((i - 1)%nat, j)
               rx rx rz rz 0.
    split; [unfold dom2; simpl; repeat split; lia|].
    split; [repeat split; lra|]. split; [lra|].
    intros T HS. rewrite (Hnode T HS). unfold relaxation, val2. simpl. ring.
Qed.

End SquareRelaxation.

(** ** Cylindrical bar: every update is a relaxation *)

Lemma nth_map_seq (f : nat -> Q) (n i : nat) :
  (i < n)%nat -> nth i (map f (seq 0 n)) 0 = f i.
Proof.
  intros Hi. rewrite (nth_indep _ 0 (f 0%nat)) by (rewrite length_map, length_seq; lia).
  rewrite map_nth. now rewrite seq_nth.
Qed.

Section CylRelaxation.

Variable res : resolution.
Variables k rho cp h_waterjet h_natural T_coolant diameter height : Q.

Hypothesis k_pos : 0 < k.
Hypothesis rho_pos : 0 < rho.
Hypothesis cp_pos : 0 < cp.
Hypothesis h_waterjet_nonneg : 0 <= h_waterjet.
Hypothesis h_natural_nonneg : 0 <= h_natural.
Hypothesis diameter_pos : 0 < diameter.
Hypothesis height_pos : 0 < height.
Hypothesis stability : Cyl.stable res k rho cp h_waterjet h_natural diameter height.

Local Abbreviation nr := (Cyl.nr res).
Local Abbreviation nz := (Cyl.nz res).
Local Abbreviation radius := (Cyl.radius diameter).
Local Abbreviation dr := (Cyl.dr res diameter).
Local Abbreviation dz := (Cyl.dz res height).
Local Abbreviation alpha := (Cyl.alpha k rho cp).
Local Abbreviation dt := (Cyl.dt res k rho cp diameter height).
Local Abbreviation step :=
  (Cyl.step res k rho cp h_waterjet h_natural T_coolant diameter height).

Lemma cyl_radius_pos : 0 < radius.
Proof. unfold Cyl.radius. apply Qdiv_pos; [assumption|reflexivity]. Qed.

Lemma cyl_dr_pos : 0 < dr.
Proof.
  unfold Cyl.dr. apply Qdiv_pos; [apply cyl_radius_pos|].
  apply Q_of_nat_pos. pose proof (cyl_nr_ge res). lia.
Qed.

Lemma cyl_dz_pos : 0 < dz.
Proof.
  unfold Cyl.dz. apply Qdiv_pos; [assumption|].
  apply Q_of_nat_pos. pose proof (cyl_nz_ge res). lia.
Qed.

Lemma cyl_alpha_dt_pos : 0 < alpha * dt.
Proof. apply Qmult_lt_0_compat; [now apply alpha_pos|apply floor_pos]. Qed.

(** The radius array away from the axis: [r_safe[i] = i * dr]. *)
Lemma cyl_r_safe (i : nat) :
  (0 < i < nr)%nat -> nth i (Cyl.r_safe res diameter) 0 == Q_of_nat i * dr.
Proof.
  intros Hi. unfold Cyl.r_safe, Cyl.r, linspace.
  rewrite (mapi_nth _ _ i 0 0) by (rewrite length_map, length_seq; lia).
  replace (i =? 0)%nat with false by (symmetry; apply Nat.eqb_neq; lia).
  rewrite nth_map_seq by lia. unfold Cyl.dr.
  assert (0 < Q_of_nat (nr - 1)) by (apply Q_of_nat_pos; lia).
  field. lra.
Qed.

Lemma cyl_r_safe_ge (i : nat) :
  (0 < i < nr)%nat -> dr <= nth i (Cyl.r_safe res diameter) 0.
Proof.
  intros Hi. rewrite (cyl_r_safe i Hi). pose proof cyl_dr_pos.
  assert (1 <= Q_of_nat i).
  { unfold Q_of_nat. change 1 with (inject_Z 1). rewrite <- Zle_Qle. lia. }
  nra.
Qed.

Lemma cyl_dr_le_radius : dr <= radius.
Proof.
  pose proof cyl_dr_pos as Hdr. pose proof (cyl_nr_ge res).
  assert (HN : 1 <= Q_of_nat (nr - 1)).
  { unfold Q_of_nat. change 1 with (inject_Z 1). rewrite <- Zle_Qle. lia. }
  assert (E : dr * Q_of_nat (nr - 1) == radius).
  { unfold Cyl.dr. apply Qdiv_mul. lra. }
  revert Hdr E HN. generalize dr, (Q_of_nat (nr - 1)). intros d N Hd E HN. nra.
Qed.

Lemma cyl_relaxes (p : nat * nat) :
  dom2 nr nz p -> relaxes val2 (dom2 nr nz) (shape nr nz) T_coolant step p.
Proof.
  destruct p as [i j]. intros [Hi Hj]. simpl in Hi, Hj.
  pose proof (cyl_nr_ge res) as Hnr. pose proof (cyl_nz_ge res) as Hnz.
  pose proof cyl_dr_pos as Hdr. pose proof cyl_dz_pos as Hdz.
  pose proof cyl_radius_pos as HR. pose proof cyl_dr_le_radius as HdrR.
  pose proof cyl_alpha_dt_pos as Had.
  destruct stability as (S1 & S2 & S3 & S4).
  assert (Har : 0 <= alpha * dt / dr ^ 2)
    by (apply Qdiv_nonneg0; [lra|apply Qsq_nonneg]).
  assert (Haz : 0 <= alpha * dt / dz ^ 2)
    by (apply Qdiv_nonneg0; [lra|apply Qsq_nonneg]).
  assert (Hnode : forall T, shape nr nz T ->
            val2 (step T) (i, j)
            = Cyl.node res k rho cp h_waterjet h_natural T_coolant diameter height T i j).
  { intros T HS. unfold val2. simpl. now apply cyl_step_node. }
  unfold Cyl.node in Hnode.
  destruct (j =? 0)%nat eqn:Ej0; [|destruct (j =? nz - 1)%nat eqn:Ejt;
    [|destruct (i =? 0)%nat eqn:Ei0; [|destruct (i =? nr - 1)%nat eqn:Eio]]];
    reflect_nat.
  - (* the face on the jet *)
    relax_with (i, 1%nat) (i, j) (i, j) (i, j)
               (alpha * dt / dz ^ 2) 0 0 0 (alpha * dt * h_waterjet / (k * dz)).
    split; [unfold dom2; simpl; repeat split; lia|].
    split; [repeat split; try lra; apply Qdiv_nonneg; nra|]. split; [lra|].
    intros T HS. rewrite (Hnode T HS). subst j.
    unfold Cyl.bottom_value, relaxation, val2. simpl fst. simpl snd.
    field. split; lra.
  - (* the top face *)
    relax_with (i, (nz - 2)%nat) (i, j) (i, j) (i, j)
               (alpha * dt / dz ^ 2) 0 0 0 (alpha * dt * h_natural / (k * dz)).
    split; [unfold dom2; simpl; repeat split; lia|].
    split; [repeat split; try lra; apply Qdiv_nonneg; nra|]. split; [lra|].
    intros T HS. rewrite (Hnode T HS). subst j.
    unfold Cyl.top_value, relaxation, val2. simpl fst. simpl snd.
    field. split; lra.
  - (* the centerline *)
    relax_with (1%nat, j) (i, (j + 1)%nat) (i, (j - 1)%nat) (i, j)
               (2 * (alpha * dt / dr ^ 2)) (alpha * dt / dz ^ 2) (alpha * dt / dz ^ 2)
               0 0.
    split; [unfold dom2; simpl; repeat split; lia|].
    split; [repeat split; lra|]. split; [lra|].
    intros T HS. rewrite (Hnode T HS). subst i.
    unfold Cyl.centerline_value, relaxation, val2. simpl fst. simpl snd.
    field. split; lra.
  - (* the outer face *)
    assert (Hc1 : 0 <= alpha * dt / dr ^ 2 - alpha * dt * (1 / radius) / dr).
    { assert (E : alpha * dt / dr ^ 2 - alpha * dt * (1 / radius) / dr
                  == alpha * dt * (radius - dr) / (radius * dr ^ 2))
        by (field; split; lra).
      rewrite E. apply Qdiv_nonneg; [nra|].
      change (dr ^ 2) with (dr * dr).
      apply Qmult_lt_0_compat; [lra|apply Qmult_lt_0_compat; lra]. }
    assert (HgR : 0 <= alpha * dt * (1 / radius) / dr).
    { apply Qdiv_nonneg; [|assumption].
      assert (0 < 1 / radius) by (apply Qdiv_pos; lra). nra. }
    relax_with ((nr - 2)%nat, j) (i, j) (i, j) (i, j)
               (alpha * dt / dr ^ 2 - alpha * dt * (1 / radius) / dr) 0 0 0
               (alpha * dt * h_natural / (k * dr)).
    split; [unfold dom2; simpl; repeat split; lia|].
    split; [repeat split; try lra; apply Qdiv_nonneg; nra|]. split; [lra|].
    intros T HS. rewrite (Hnode T HS). subst i.
    unfold Cyl.outer_value, relaxation, val2. simpl fst. simpl snd.
    field. repeat split; lra.
  - (* interior *)
    pose proof (cyl_r_safe_ge i ltac:(lia)) as Hr.
    revert Hnode Hr. unfold Cyl.interior_value.
    generalize (nth i (Cyl.r_safe res diameter) 0). intros rv Hnode Hr.
    assert (Hg : 0 <= alpha * dt * (1 / rv) / (2 * dr)).
    { apply Qdiv_nonneg; [|lra].
      assert (0 < 1 / rv) by (apply Qdiv_pos; lra). nra. }
    assert (Hc2 : 0 <= alpha * dt / dr ^ 2 - alpha * dt * (1 / rv) / (2 * dr)).
    { assert (E : alpha * dt / dr ^ 2 - alpha * dt * (1 / rv) / (2 * dr)
                  == alpha * dt * (2 * rv - dr) / (2 * rv * dr ^ 2))
        by (field; split; lra).
      rewrite E. apply Qdiv_nonneg; [nra|].
      change (dr ^ 2) with (dr * dr).
      apply Qmult_lt_0_compat; [lra|apply Qmult_lt_0_compat; lra]. }
    relax_with ((i + 1)%nat, j) ((i - 1)%nat, j) (i, (j + 1)%nat) (i, (j - 1)%nat)
               (alpha * dt / dr ^ 2 + alpha * dt * (1 / rv) / (2 * dr))
               (alpha * dt / dr ^ 2 - alpha * dt * (1 / rv) / (2 * dr))
               (alpha * dt / dz ^ 2) (alpha * dt / dz ^ 2) 0.
    split; [unfold dom2; simpl; repeat split; lia|].
    split; [repeat split; lra|]. split; [lra|].
    intros T HS. rewrite (Hnode T HS).
    unfold relaxation, val2. simpl fst. simpl snd.
    field. repeat split; lra.
Qed.

End CylRelaxation.

(** ** Conical tip: every update is a relaxation *)

Section ConeRelaxation.

Variable exp : Q -> Q.
Variable res : resolution.
Variables k rho cp h_waterjet h_natural T_coolant : Q.
Variables cyl_height cone_height : Q.

Hypothesis k_pos : 0 < k.
Hypothesis rho_pos : 0 < rho.
Hypothesis cp_pos : 0 < cp.
Hypothesis h_natural_nonneg : 0 <= h_natural.
Hypothesis length_pos : 0 < cyl_height + cone_height.
Hypothesis stability :
  Cone.stable exp res k rho cp h_waterjet h_natural cyl_height cone_height.

Local Abbreviation n_points := (Cone.n_points res).
Local Abbreviation dx := (Cone.dx res cyl_height cone_height).
Local Abbreviation alpha := (Cone.alpha k rho cp).
Local Abbreviation dt := (Cone.dt res k rho cp cyl_height cone_height).
Local Abbreviation step :=
  (Cone.step exp res k rho cp h_waterjet h_natural T_coolant cyl_height cone_height).

Lemma cone_dx_pos : 0 < dx.
Proof.
  unfold Cone.dx, Cone.total_length. apply Qdiv_pos; [assumption|].
  apply Q_of_nat_pos. pose proof (cone_n_points_ge res). lia.
Qed.

Lemma cone_alpha_dt_pos : 0 < alpha * dt.
Proof. apply Qmult_lt_0_compat; [now apply alpha_pos|apply floor_pos]. Qed.

Lemma cone_relaxes (i : nat) :
  dom1 n_points i ->
  relaxes get1 (dom1 n_points) (fun T => length T = n_points) T_coolant step i.
Proof.
  unfold dom1. intros Hi.
  pose proof (cone_n_points_ge res) as Hn. pose proof cone_dx_pos as Hdx.
  pose proof cone_alpha_dt_pos as Had.
  destruct stability as (S1 & S2 & S3).
  assert (Ha : 0 <= alpha * dt / dx ^ 2)
    by (apply Qdiv_nonneg0; [lra|apply Qsq_nonneg]).
  assert (Hc : 0 <= alpha * dt * (h_natural / (k * dx))).
  { assert (0 <= h_natural / (k * dx)) by (apply Qdiv_nonneg; nra). nra. }
  assert (Hnode : forall T, length T = n_points ->
            get1 (step T) i
            = Cone.node exp res k rho cp h_waterjet h_natural T_coolant
                        cyl_height cone_height T i).
  { intros T HL. now apply cone_step_node. }
  unfold Cone.node in Hnode.
  destruct (i =? 0)%nat eqn:Ei0; [|destruct (i =? n_points - 1)%nat eqn:Eit];
    reflect_nat.
  - (* the free end *)
    relax_with i i i i 0 0 0 0 (alpha * dt * (h_natural / (k * dx))).
    split; [unfold dom1; repeat split; lia|].
    split; [repeat split; lra|]. split; [lra|].
    intros T HL. rewrite (Hnode T HL). subst i. unfold relaxation. simpl. ring.
  - (* the tip on the jet *)
    relax_with i i i i 0 0 0 0 (1 - exp (- h_waterjet * dx / k)).
    split; [unfold dom1; repeat split; lia|].
    split; [repeat split; lra|]. split; [lra|].
    intros T HL. rewrite (Hnode T HL). subst i. unfold relaxation. simpl. ring.
  - (* interior *)
    relax_with (i + 1)%nat (i - 1)%nat i i
               (alpha * dt / dx ^ 2) (alpha * dt / dx ^ 2) 0 0
               (alpha * dt * (h_natural / (k * dx))).
    split; [unfold dom1; repeat split; lia|].
    split; [repeat split; lra|]. split; [lra|].
    intros T HL. rewrite (Hnode T HL). unfold relaxation. simpl.
    field. split; lra.
Qed.

End ConeRelaxation.

(** ** Temperature range *)

Lemma within_widen {G I : Type} (val : G -> I -> Q) (dom : I -> Prop)
      (lo hi eps : Q) (T : G) :
  0 <= eps -> within val dom lo hi T -> within val dom (lo - eps) (hi + eps) T.
Proof. intros He H i Hi. specialize (H i Hi). lra. Qed.

Section Ranges.

Variable exp : Q -> Q.
Variable res : resolution.
Variables k rho cp h_waterjet h_natural T_coolant T_init : Q.
Variables width height diameter cyl_height cone_cyl_height cone_height : Q.

Hypothesis k_pos : 0 < k.
Hypothesis rho_pos : 0 < rho.
Hypothesis cp_pos : 0 < cp.
Hypothesis h_waterjet_nonneg : 0 <= h_waterjet.
Hypothesis h_natural_nonneg : 0 <= h_natural.
Hypothesis cooling : T_coolant < T_init.

Lemma square_range (n : nat) :
  0 < width -> 0 < height ->
  Square.stable res k rho cp h_waterjet h_natural width height ->
  let T := iterate (Square.step res k rho cp h_waterjet h_natural T_coolant width height)
                   n (np_ones2 (Square.nz res) (Square.nx res) T_init) in
  within val2 (dom2 (Square.nz res) (Square.nx res)) T_coolant T_init T
  /\ below val2 (dom2 (Square.nz res) (Square.nx res))
           (Square.step res k rho cp h_waterjet h_natural T_coolant width height T) T.
Proof.
  intros Hw Hh Hst T.
  assert (U : forall p, dom2 (Square.nz res) (Square.nx res) p ->
                        val2 (np_ones2 (Square.nz res) (Square.nx res) T_init) p == T_init).
  { intros [i j] [Hi Hj]. unfold val2. simpl in *. rewrite get2_np_ones2 by assumption. lra. }
  split.
  - apply (iterate_within val2 _ (shape (Square.nz res) (Square.nx res)) T_coolant _
             (square_step_shape res k rho cp h_waterjet h_natural T_coolant width height)
             (square_relaxes res k rho cp h_waterjet h_natural T_coolant width height
                             k_pos rho_pos cp_pos h_waterjet_nonneg h_natural_nonneg
                             Hw Hh Hst)
             _ T_init (shape_np_ones2 _ _ _) U (Qlt_le_weak _ _ cooling)).
  - apply (iterate_below val2 _ (shape (Square.nz res) (Square.nx res)) T_coolant _
             (square_step_shape res k rho cp h_waterjet h_natural T_coolant width height)
             (square_relaxes res k rho cp h_waterjet h_natural T_coolant width height
                             k_pos rho_pos cp_pos h_waterjet_nonneg h_natural_nonneg
                             Hw Hh Hst)
             _ T_init (shape_np_ones2 _ _ _) U (Qlt_le_weak _ _ cooling)).
Qed.

Lemma cyl_range (n : nat) :
  0 < diameter -> 0 < cyl_height ->
  Cyl.stable res k rho cp h_waterjet h_natural diameter cyl_height ->
  let T := iterate (Cyl.step res k rho cp h_waterjet h_natural T_coolant diameter cyl_height)
                   n (np_ones2 (Cyl.nr res) (Cyl.nz res) T_init) in
  within val2 (dom2 (Cyl.nr res) (Cyl.nz res)) T_coolant T_init T
  /\ below val2 (dom2 (Cyl.nr res) (Cyl.nz res))
           (Cyl.step res k rho cp h_waterjet h_natural T_coolant diameter cyl_height T) T.
Proof.
  intros Hd Hh Hst T.
  assert (U : forall p, dom2 (Cyl.nr res) (Cyl.nz res) p ->
                        val2 (np_ones2 (Cyl.nr res) (Cyl.nz res) T_init) p == T_init).
  { intros [i j] [Hi Hj]. unfold val2. simpl in *. rewrite get2_np_ones2 by assumption. lra. }
  split.
  - apply (iterate_within val2 _ (shape (Cyl.nr res) (Cyl.nz res)) T_coolant _
             (cyl_step_shape res k rho cp h_waterjet h_natural T_coolant diameter cyl_height)
             (cyl_relaxes res k rho cp h_waterjet h_natural T_coolant diameter cyl_height
                          k_pos rho_pos cp_pos h_waterjet_nonneg h_natural_nonneg
                          Hd Hh Hst)
             _ T_init (shape_np_ones2 _ _ _) U (Qlt_le_weak _ _ cooling)).
  - apply (iterate_below val2 _ (shape (Cyl.nr res) (Cyl.nz res)) T_coolant _
             (cyl_step_shape res k rho cp h_waterjet h_natural T_coolant diameter cyl_height)
             (cyl_relaxes res k rho cp h_waterjet h_natural T_coolant diameter cyl_height
                          k_pos rho_pos cp_pos h_waterjet_nonneg h_natural_nonneg
                          Hd Hh Hst)
             _ T_init (shape_np_ones2 _ _ _) U (Qlt_le_weak _ _ cooling)).
Qed.

Lemma cone_step_wf (T : vec) :
  length T = Cone.n_points res ->
  length (Cone.step exp res k rho cp h_waterjet h_natural T_coolant
                    cone_cyl_height cone_height T) = Cone.n_points res.
Proof. intros H. now rewrite cone_step_length. Qed.

Lemma cone_range (n : nat) :
  0 < cone_cyl_height + cone_height ->
  Cone.stable exp res k rho cp h_waterjet h_natural cone_cyl_height cone_height ->
  let T := iterate (Cone.step exp res k rho cp h_waterjet h_natural T_coolant
                              cone_cyl_height cone_height)
                   n (np_ones1 (Cone.n_points res) T_init) in
  within get1 (dom1 (Cone.n_points res)) T_coolant T_init T
  /\ below get1 (dom1 (Cone.n_points res))
           (Cone.step exp res k rho cp h_waterjet h_natural T_coolant
                      cone_cyl_height cone_height T) T.
Proof.
  intros Hl Hst T.
  assert (U : forall i, dom1 (Cone.n_points res) i ->
                        get1 (np_ones1 (Cone.n_points res) T_init) i == T_init).
  { intros i Hi. rewrite get1_np_ones1 by exact Hi. lra. }
  split.
  - apply (iterate_within get1 _ (fun T => length T = Cone.n_points res) T_coolant _
             cone_step_wf
             (cone_relaxes exp res k rho cp h_waterjet h_natural T_coolant
                           cone_cyl_height cone_height
                           k_pos rho_pos cp_pos h_natural_nonneg Hl Hst)
             _ T_init (np_ones1_length _ _) U (Qlt_le_weak _ _ cooling)).
  - apply (iterate_below get1 _ (fun T => length T = Cone.n_points res) T_coolant _
             cone_step_wf
             (cone_relaxes exp res k rho cp h_waterjet h_natural T_coolant
                           cone_cyl_height cone_height
                           k_pos rho_pos cp_pos h_natural_nonneg Hl Hst)
             _ T_init (np_ones1_length _ _) U (Qlt_le_weak _ _ cooling)).
Qed.

End Ranges.

(** The claim as the specification words it fails when an explicit update
    overshoots.  A bar of low conductivity ([k = 0.5], [rho = 1000],
    [cp = 1000]) with the 65 mm + 10 mm conical geometry, cooled on its sides
    with [h_natural = 5000] from 900 towards 20: after the first pass the
    middle node is at -1162.5, more than a thousand degrees below the
    coolant.  ([h_waterjet = 0], so the exponential is only taken at 0, where
    it is 1.) *)
Lemma cone_node_far_below_coolant :
  get1 (fld (iterate (Cone.body (fun _ => 1) Low 0.5 1000 1000 0 5000 20 0.065 0.010)
                     1 (Cone.init Low 900))) 12
  < 20 - 1000.
Proof. vm_compute. reflexivity. Qed.

(** C2 (amended).  For valid inputs ([k, rho, cp > 0], [h_jet >= 0],
    [h_natural >= 0], [T_init > T_coolant], positive dimensions) that also
    satisfy the stability conditions of the three schemes (every explicit
    update is a convex combination; the tip factor [exp(-h_jet*dx/k)] lies in
    [[0, 1]]), every temperature held in any solver's grid after any number of
    passes lies within [[T_coolant - eps, T_init + eps]], for every
    [eps >= 0]. *)
Theorem temperatures_stay_in_range
        (exp : Q -> Q) (res : resolution)
        (k rho cp h_waterjet h_natural T_coolant T_init : Q)
        (width height diameter cyl_height cone_cyl_height cone_height : Q)
        (n : nat) (eps : Q) :
  0 < k -> 0 < rho -> 0 < cp -> 0 <= h_waterjet -> 0 <= h_natural ->
  T_coolant < T_init ->
  0 < width -> 0 < height -> 0 < diameter -> 0 < cyl_height ->
  0 < cone_cyl_height + cone_height ->
  Square.stable res k rho cp h_waterjet h_natural width height ->
  Cyl.stable res k rho cp h_waterjet h_natural diameter cyl_height ->
  Cone.stable exp res k rho cp h_waterjet h_natural cone_cyl_height cone_height ->
  0 <= eps ->
  within val2 (dom2 (Square.nz res) (Square.nx res)) (T_coolant - eps) (T_init + eps)
         (fld (iterate (Square.body res k rho cp h_waterjet h_natural T_coolant
                                    width height) n (Square.init res T_init)))
  /\ within val2 (dom2 (Cyl.nr res) (Cyl.nz res)) (T_coolant - eps) (T_init + eps)
            (fld (iterate (Cyl.advance res k rho cp h_waterjet h_natural T_coolant
                                       diameter cyl_height) n (Cyl.init res T_init)))
  /\ within get1 (dom1 (Cone.n_points res)) (T_coolant - eps) (T_init + eps)
            (fld (iterate (Cone.body exp res k rho cp h_waterjet h_natural T_coolant
                                     cone_cyl_height cone_height) n (Cone.init res T_init))).
Proof.
  intros Hk Hrho Hcp Hj Hn Hcool Hw Hh Hd Hch Hl Ssq Scy Sco Heps.
  split; [|split]; apply within_widen; try assumption.
  - change (Square.body res k rho cp h_waterjet h_natural T_coolant width height)
      with (pass (Square.step res k rho cp h_waterjet h_natural T_coolant width height)
                 (Square.center res) (Square.dt res k rho cp width height)).
    rewrite iterate_pass_fld. apply square_range; assumption.
  - change (Cyl.advance res k rho cp h_waterjet h_natural T_coolant diameter cyl_height)
      with (pass (Cyl.step res k rho cp h_waterjet h_natural T_coolant diameter cyl_height)
                 (Cyl.center res) (Cyl.dt res k rho cp diameter cyl_height)).
    rewrite iterate_pass_fld. apply cyl_range; assumption.
  - change (Cone.body exp res k rho cp h_waterjet h_natural T_coolant
                      cone_cyl_height cone_height)
      with (pass (Cone.step exp res k rho cp h_waterjet h_natural T_coolant
                            cone_cyl_height cone_height)
                 (Cone.center res) (Cone.dt res k rho cp cone_cyl_height cone_height)).
    rewrite iterate_pass_fld. apply cone_range; assumption.
Qed.

(** The scenario inputs at the lowest resolution satisfy the stability
    conditions.  The exponential is instantiated with [1 / (1 - x)], a
    rational function that, like [np.exp], maps the non-positive numbers
    into [(0, 1]]. *)
Lemma temperatures_stay_in_range_witness :
  within val2 (dom2 (Square.nz Low) (Square.nx Low)) (20 - 0) (900 + 0)
         (fld (iterate (Square.body Low 50 7800 500 5000 10 20 0.006 0.075) 2
                       (Square.init Low 900)))
  /\ within val2 (dom2 (Cyl.nr Low) (Cyl.nz Low)) (20 - 0) (900 + 0)
            (fld (iterate (Cyl.advance Low 50 7800 500 5000 10 20 0.01905 0.075) 2
                          (Cyl.init Low 900)))
  /\ within get1 (dom1 (Cone.n_points Low)) (20 - 0) (900 + 0)
            (fld (iterate (Cone.body (fun x => 1 / (1 - x)) Low 50 7800 500 5000 10 20
                                     0.065 0.010) 2 (Cone.init Low 900))).
Proof.
  apply (temperatures_stay_in_range (fun x => 1 / (1 - x)) Low 50 7800 500 5000 10 20 900
                                    0.006 0.075 0.01905 0.075 0.065 0.010 2 0);
    try reflexivity; try (vm_compute; discriminate);
    try (unfold Square.stable, Cyl.stable, Cone.stable; repeat split;
         vm_compute; discriminate).
Defined.

(** ** Cooling histories *)

Lemma np_ones2_uniform (n0 n1 : nat) (v : Q) (p : nat * nat) :
  dom2 n0 n1 p -> val2 (np_ones2 n0 n1 v) p == v.
Proof.
  destruct p as [i j]. intros [Hi Hj]. unfold val2. simpl in *.
  rewrite get2_np_ones2 by assumption. lra.
Qed.

Lemma np_ones1_uniform (n : nat) (v : Q) (i : nat) :
  dom1 n i -> get1 (np_ones1 n v) i == v.
Proof. intros Hi. rewrite get1_np_ones1 by exact Hi. lra. Qed.

Lemma Qeq_bool_pos (x : Q) : 0 < x -> Qeq_bool x 0 = false.
Proof.
  intros Hx. destruct (Qeq_bool x 0) eqn:E; [|reflexivity].
  apply Qeq_bool_eq in E. lra.
Qed.

Lemma Qsq_pos (x : Q) : 0 < x -> 0 < x ^ 2.
Proof. intros Hx. change (x ^ 2) with (x * x). now apply Qmult_lt_0_compat. Qed.

Section Histories.

Variable exp : Q -> Q.
Variable res : resolution.
Variables k rho cp h_waterjet h_natural T_coolant T_init sim_time : Q.

Hypothesis k_pos : 0 < k.
Hypothesis rho_pos : 0 < rho.
Hypothesis cp_pos : 0 < cp.
Hypothesis h_waterjet_nonneg : 0 <= h_waterjet.
Hypothesis h_natural_nonneg : 0 <= h_natural.
Hypothesis cooling : T_coolant < T_init.

Lemma four_alpha_nonzero : Qeq_bool (4 * (k / (rho * cp))) 0 = false.
Proof.
  apply Qeq_bool_pos. pose proof (alpha_pos k rho cp k_pos rho_pos cp_pos). lra.
Qed.

Lemma rho_cp_nonzero : Qeq_bool (rho * cp) 0 = false.
Proof. apply Qeq_bool_pos. now apply Qmult_lt_0_compat. Qed.

Lemma square_history (width height : Q) :
  0 < width -> 0 < height ->
  Square.stable res k rho cp h_waterjet h_natural width height ->
  exists times temps,
    Square.simulate_square_bar_fast res k rho cp h_waterjet h_natural T_coolant
                                    T_init sim_time width height
    = Ok (times, temps)
    /\ non_increasing temps.
Proof.
  intros Hw Hh Hst.
  destruct (square_run_returns res k rho cp h_waterjet h_natural T_coolant T_init
                               sim_time width height) as [s R].
  exists (time_history s), (temp_history s). split.
  - unfold Square.simulate_square_bar_fast, Square.zero_divisor. rewrite R.
    fold (Square.alpha k rho cp).
    unfold Square.alpha. rewrite rho_cp_nonzero, four_alpha_nonzero.
    rewrite (Qeq_bool_pos _ (Qsq_pos _ (square_dx_pos res width Hw))).
    rewrite (Qeq_bool_pos _ (Qsq_pos _ (square_dz_pos res height Hh))).
    reflexivity.
  - apply square_run_trace in R. destruct R as (n & -> & _).
    apply (iterate_temps_non_increasing
             val2 _ (shape (Square.nz res) (Square.nx res)) T_coolant _
             (square_step_shape res k rho cp h_waterjet h_natural T_coolant width height)
             (square_relaxes res k rho cp h_waterjet h_natural T_coolant width height
                             k_pos rho_pos cp_pos h_waterjet_nonneg h_natural_nonneg
                             Hw Hh Hst)
             _ T_init (shape_np_ones2 _ _ _) (np_ones2_uniform _ _ _)
             (Qlt_le_weak _ _ cooling)
             (Nat.min (Square.nz res / 2) (Square.nz res - 1),
              Nat.min (Square.nx res / 2) (Square.nx res - 1))
             (Square.center res) (Square.dt res k rho cp width height)
             (Square.init res T_init)).
    + pose proof (square_nz_ge res). pose proof (square_nx_ge res).
      split; simpl; lia.
    + reflexivity.
    + reflexivity.
    + reflexivity.
Qed.

Lemma cyl_history (diameter height : Q) :
  0 < diameter -> 0 < height ->
  Cyl.stable res k rho cp h_waterjet h_natural diameter height ->
  exists times temps,
    Cyl.simulate_cylindrical_bar_fast res k rho cp h_waterjet h_natural T_coolant
                                      T_init sim_time diameter height
    = Ok (times, temps)
    /\ non_increasing temps.
Proof.
  intros Hd Hh Hst.
  destruct (cyl_run_returns res k rho cp h_waterjet h_natural T_coolant T_init
                            sim_time diameter height) as [s R].
  exists (time_history s), (temp_history s). split.
  - unfold Cyl.simulate_cylindrical_bar_fast, Cyl.zero_divisor. rewrite R.
    unfold Cyl.alpha. rewrite rho_cp_nonzero, four_alpha_nonzero.
    rewrite (Qeq_bool_pos _ (cyl_radius_pos diameter Hd)).
    rewrite andb_false_r. reflexivity.
  - apply cyl_run_trace in R. destruct R as (n & -> & _).
    apply (iterate_temps_non_increasing
             val2 _ (shape (Cyl.nr res) (Cyl.nz res)) T_coolant _
             (cyl_step_shape res k rho cp h_waterjet h_natural T_coolant diameter height)
             (cyl_relaxes res k rho cp h_waterjet h_natural T_coolant diameter height
                          k_pos rho_pos cp_pos h_waterjet_nonneg h_natural_nonneg
                          Hd Hh Hst)
             _ T_init (shape_np_ones2 _ _ _) (np_ones2_uniform _ _ _)
             (Qlt_le_weak _ _ cooling)
             (Nat.min (Cyl.nr res / 2) (Cyl.nr res - 1),
              Nat.min (Cyl.nz res / 2) (Cyl.nz res - 1))
             (Cyl.center res) (Cyl.dt res k rho cp diameter height)
             (Cyl.init res T_init)).
    + pose proof (cyl_nr_ge res). pose proof (cyl_nz_ge res).
      split; simpl; lia.
    + reflexivity.
    + reflexivity.
    + reflexivity.
Qed.

Lemma cone_history (cyl_diameter cyl_height cone_height cone_angle : Q) :
  0 < cyl_height + cone_height ->
  Cone.stable exp res k rho cp h_waterjet h_natural cyl_height cone_height ->
  exists times temps,
    Cone.simulate_conical_tip_bar_fast exp res k rho cp h_waterjet h_natural T_coolant
                                       T_init sim_time cyl_diameter cyl_height
                                       cone_height cone_angle
    = Ok (times, temps)
    /\ non_increasing temps.
Proof.
  intros Hl Hst.
  destruct (cone_run_returns exp res k rho cp h_waterjet h_natural T_coolant T_init
                             sim_time cyl_height cone_height) as [s R].
  exists (time_history s), (temp_history s). split.
  - unfold Cone.simulate_conical_tip_bar_fast, Cone.zero_divisor. rewrite R.
    unfold Cone.alpha. rewrite rho_cp_nonzero, four_alpha_nonzero.
    assert (E : Qeq_bool (k * Cone.dx res cyl_height cone_height) 0 = false).
    { apply Qeq_bool_pos. apply Qmult_lt_0_compat; [assumption|].
      now apply cone_dx_pos. }
    rewrite E, andb_false_r. reflexivity.
  - apply cone_run_trace in R. destruct R as (n & -> & _).
    apply (iterate_temps_non_increasing
             get1 _ (fun T => length T = Cone.n_points res) T_coolant _
             (cone_step_wf exp res k rho cp h_waterjet h_natural T_coolant
                           cyl_height cone_height)
             (cone_relaxes exp res k rho cp h_waterjet h_natural T_coolant
                           cyl_height cone_height
                           k_pos rho_pos cp_pos h_natural_nonneg Hl Hst)
             _ T_init (np_ones1_length _ _) (np_ones1_uniform _ _)
             (Qlt_le_weak _ _ cooling)
             (Nat.min (Cone.n_points res / 2) (Cone.n_points res - 1))
             (Cone.center res) (Cone.dt res k rho cp cyl_height cone_height)
             (Cone.init res T_init)).
    + pose proof (cone_n_points_ge res). unfold dom1. lia.
    + reflexivity.
    + reflexivity.
    + reflexivity.
Qed.

End Histories.

(** The claim as the specification words it fails when an explicit update
    overshoots: on a two seconds long run of the bar of low conductivity
    ([k = 0.5], [rho = 1000], [cp = 1000], [h_natural = 5000], 65 mm + 10 mm),
    the solver returns the two samples -1162.5 and 1608.98..., the
    second above the first.  All inputs are valid: [k, rho, cp > 0], both
    coefficients non-negative, [T_init > T_coolant]. *)
Lemma cone_history_rises :
  exists times temps,
    Cone.simulate_conical_tip_bar_fast (fun _ => 1) Low 0.5 1000 1000 0 5000 20 900 2
                                       0.01905 0.065 0.010 30
    = Ok (times, temps)
    /\ ~ non_increasing temps.
Proof.
  eexists. eexists. split.
  - vm_compute. reflexivity.
  - simpl. intros [H _]. revert H. vm_compute. intros H. apply H. reflexivity.
Qed.

(** C3 (amended).  For each of the three solvers, whenever [k, rho, cp > 0],
    [T_init > T_coolant], both convective coefficients are non-negative, the
    dimensions are positive and the stability conditions of the scheme hold
    (every explicit update is a convex combination; the tip factor
    [exp(-h_jet*dx/k)] lies in [[0, 1]]), the solver returns, and the center
    temperatures in the returned history are monotonically non-increasing:
    every stored sample is at most the previously stored one. *)
Theorem center_history_non_increasing
        (exp : Q -> Q) (res : resolution)
        (k rho cp h_waterjet h_natural T_coolant T_init sim_time : Q)
        (width height diameter cyl_height : Q)
        (cone_diameter cone_cyl_height cone_height cone_angle : Q) :
  0 < k -> 0 < rho -> 0 < cp -> 0 <= h_waterjet -> 0 <= h_natural ->
  T_coolant < T_init ->
  0 < width -> 0 < height -> 0 < diameter -> 0 < cyl_height ->
  0 < cone_cyl_height + cone_height ->
  Square.stable res k rho cp h_waterjet h_natural width height ->
  Cyl.stable res k rho cp h_waterjet h_natural diameter cyl_height ->
  Cone.stable exp res k rho cp h_waterjet h_natural cone_cyl_height cone_height ->
  (exists times temps,
      Square.simulate_square_bar_fast res k rho cp h_waterjet h_natural T_coolant
                                      T_init sim_time width height
      = Ok (times, temps)
      /\ non_increasing temps)
  /\ (exists times temps,
         Cyl.simulate_cylindrical_bar_fast res k rho cp h_waterjet h_natural T_coolant
                                           T_init sim_time diameter cyl_height
         = Ok (times, temps)
         /\ non_increasing temps)
  /\ (exists times temps,
         Cone.simulate_conical_tip_bar_fast exp res k rho cp h_waterjet h_natural
                                            T_coolant T_init sim_time cone_diameter
                                            cone_cyl_height cone_height cone_angle
         = Ok (times, temps)
         /\ non_increasing temps).
Proof.
  intros Hk Hrho Hcp Hj Hn Hcool Hw Hh Hd Hch Hl Ssq Scy Sco.
  split; [|split].
  - now apply square_history.
  - now apply cyl_history.
  - now apply cone_history.
Qed.

(** The scenario inputs, run for 15 s at the lowest resolution, with the
    same stand-in for the exponential. *)
Lemma center_history_non_increasing_witness :
  (exists times temps,
      Square.simulate_square_bar_fast Low 50 7800 500 5000 10 20 900 15 0.006 0.075
      = Ok (times, temps)
      /\ non_increasing temps)
  /\ (exists times temps,
         Cyl.simulate_cylindrical_bar_fast Low 50 7800 500 5000 10 20 900 15 0.01905 0.075
         = Ok (times, temps)
         /\ non_increasing temps)
  /\ (exists times temps,
         Cone.simulate_conical_tip_bar_fast (fun x => 1 / (1 - x)) Low 50 7800 500 5000 10
                                            20 900 15 0.01905 0.065 0.010 30
         = Ok (times, temps)
         /\ non_increasing temps).
Proof.
  apply (center_history_non_increasing (fun x => 1 / (1 - x)) Low 50 7800 500 5000 10 20
                                       900 15 0.006 0.075 0.01905 0.075
                                       0.01905 0.065 0.010 30);
    try reflexivity; try (vm_compute; discriminate);
    try (unfold Square.stable, Cyl.stable, Cone.stable; repeat split;
         vm_compute; discriminate).
Defined.
